(** * String analyser service: a shallow embedding of
      [controllers/myControllers.ts] and its verification.

    The controller module keeps an in-memory collection of analysed strings
    ([stringStore.strings]), derives a set of properties for each inserted
    string, mirrors the collection to [strings.json], and answers structured
    and natural-language filter queries over it.

    Strings are ECMAScript strings: finite sequences of UTF-16 code units. *)

From Stdlib Require Import NArith ZArith QArith Lia.
From stdpp Require Import base decidable option list gmap strings.

Local Open Scope N_scope.

(** ** ECMAScript strings *)

Module JS.

(** A code unit is an [N] below 65536; [jsstring] is the sequence of code
    units that [s.split("")], [s.length] and [===] observe. *)
Definition codeunit := N.
Abbreviation jsstring := (list N).

(** ASCII literals of the source, as code units. *)
Definition str (s : string) : jsstring :=
  (λ a, Ascii.N_of_ascii a) <$> String.list_ascii_of_string s.

(** [WhiteSpace] and [LineTerminator] code points: the set removed by
    [String.prototype.trim] and matched by the regular expression class
    [\s]. *)
Definition isWhiteSpace (c : codeunit) : bool :=
  (c =? 0x0009) || (c =? 0x000A) || (c =? 0x000B) || (c =? 0x000C) ||
  (c =? 0x000D) || (c =? 0x0020) || (c =? 0x00A0) || (c =? 0x1680) ||
  ((0x2000 <=? c) && (c <=? 0x200A)) ||
  (c =? 0x2028) || (c =? 0x2029) || (c =? 0x202F) || (c =? 0x205F) ||
  (c =? 0x3000) || (c =? 0xFEFF).

Fixpoint trimStart (s : jsstring) : jsstring :=
  match s with
  | [] => []
  | c :: s' => if isWhiteSpace c then trimStart s' else s
  end.

Definition trimEnd (s : jsstring) : jsstring := rev (trimStart (rev s)).

(** [s.trim()] *)
Definition trim (s : jsstring) : jsstring := trimEnd (trimStart s).

(** Strings of white space only, and strings not starting with any. *)
Definition all_space (w : jsstring) : Prop :=
  Forall (λ c, isWhiteSpace c = true) w.

Definition starts_clean (s : jsstring) : Prop :=
  match s with
  | c :: _ => isWhiteSpace c = false
  | [] => True
  end.

(** [s.split(/\s+/)]: the pieces between maximal runs of white space.  The
    accumulator [cur] holds the current piece reversed; [inws] tells that the
    previous code unit belonged to a separator. *)
Fixpoint split_ws_go (cur : jsstring) (inws : bool) (s : jsstring)
  : list jsstring :=
  match s with
  | [] => [rev cur]
  | c :: s' =>
      if isWhiteSpace c then
        if inws then split_ws_go cur true s'
        else rev cur :: split_ws_go [] true s'
      else split_ws_go (c :: cur) false s'
  end.

Definition split_ws (s : jsstring) : list jsstring := split_ws_go [] false s.

(** [s.startsWith(p)] at position 0, the step of the substring search. *)
Fixpoint startsWith (p s : jsstring) : bool :=
  match p, s with
  | [], _ => true
  | _ :: _, [] => false
  | a :: p', b :: s' => (a =? b) && startsWith p' s'
  end.

(** [s.includes(p)] *)
Fixpoint includes (s p : jsstring) : bool :=
  startsWith p s ||
  match s with
  | [] => false
  | _ :: s' => includes s' p
  end.

(** A string between double quotes (code unit 34). *)
Definition quoted (s : jsstring) : jsstring := [34] ++ s ++ [34].

(** Lower-casing of the ASCII letters.  [String.prototype.toLowerCase]
    coincides with it on strings of ASCII code units. *)
Definition isUpperASCII (c : codeunit) : bool := (65 <=? c) && (c <=? 90).
Definition toLowerASCII (s : jsstring) : jsstring :=
  (λ c, if isUpperASCII c then c + 32 else c) <$> s.
Definition isASCII (s : jsstring) : Prop := Forall (λ c, c < 128) s.

(** String equality [===]. *)
Definition streq (a b : jsstring) : bool := bool_decide (a = b).

(** The string iterator: it yields code points, so a high surrogate
    followed by a low surrogate comes out as one two-unit element.  This is
    what [new Set(value)] consumes. *)
Definition isHighSurrogate (c : codeunit) : bool :=
  (0xD800 <=? c) && (c <=? 0xDBFF).
Definition isLowSurrogate (c : codeunit) : bool :=
  (0xDC00 <=? c) && (c <=? 0xDFFF).

Fixpoint string_iterator (s : jsstring) : list jsstring :=
  match s with
  | [] => []
  | c :: s' =>
      match s' with
      | d :: s'' =>
          if isHighSurrogate c && isLowSurrogate d
          then [c; d] :: string_iterator s''
          else [c] :: string_iterator s'
      | [] => [[c]]
      end
  end.

End JS.

(** ** [crypto.createHash("sha256").update(value).digest("hex")] *)

Module Crypto.
Import JS.

(** [update(value)] hashes the UTF-8 encoding of the string; a surrogate
    pair is one code point, a lone surrogate is encoded as U+FFFD. *)
Definition utf8_of_codepoint (cp : N) : list N :=
  if cp <? 0x80 then [cp]
  else if cp <? 0x800 then [0xC0 + cp / 64; 0x80 + cp mod 64]
  else if cp <? 0x10000 then
    [0xE0 + cp / 4096; 0x80 + (cp / 64) mod 64; 0x80 + cp mod 64]
  else
    [0xF0 + cp / 262144; 0x80 + (cp / 4096) mod 64;
     0x80 + (cp / 64) mod 64; 0x80 + cp mod 64].

Fixpoint utf8 (s : jsstring) : list N :=
  match s with
  | [] => []
  | c :: s' =>
      if isHighSurrogate c then
        match s' with
        | d :: s'' =>
            if isLowSurrogate d
            then utf8_of_codepoint
                   (0x10000 + (c - 0xD800) * 0x400 + (d - 0xDC00)) ++ utf8 s''
            else utf8_of_codepoint 0xFFFD ++ utf8 s'
        | [] => utf8_of_codepoint 0xFFFD
        end
      else if isLowSurrogate c then utf8_of_codepoint 0xFFFD ++ utf8 s'
      else utf8_of_codepoint c ++ utf8 s'
  end.

(** 32-bit words with wrap-around. *)
Definition w32 (x : N) : N := x mod 0x100000000.
Definition add32 (x y : N) : N := w32 (x + y).
Definition rotr (n x : N) : N :=
  N.lor (N.shiftr x n) (w32 (N.shiftl x (32 - n))).
Definition not32 (x : N) : N := N.lxor x 0xFFFFFFFF.

Definition Ch (x y z : N) : N := N.lxor (N.land x y) (N.land (not32 x) z).
Definition Maj (x y z : N) : N :=
  N.lxor (N.lxor (N.land x y) (N.land x z)) (N.land y z).
Definition bsig0 (x : N) : N :=
  N.lxor (N.lxor (rotr 2 x) (rotr 13 x)) (rotr 22 x).
Definition bsig1 (x : N) : N :=
  N.lxor (N.lxor (rotr 6 x) (rotr 11 x)) (rotr 25 x).
Definition ssig0 (x : N) : N :=
  N.lxor (N.lxor (rotr 7 x) (rotr 18 x)) (N.shiftr x 3).
Definition ssig1 (x : N) : N :=
  N.lxor (N.lxor (rotr 17 x) (rotr 19 x)) (N.shiftr x 10).

(** The round constants are the first 32 fractional bits of the cube roots
    of the first 64 primes, the initial chaining words those of the square
    roots of the first 8. *)
Definition is_prime (n : N) : bool :=
  forallb (λ d, negb (n mod d =? 0)) (N.of_nat <$> seq 2 (N.to_nat n - 2)).

Definition primes (count : nat) : list N :=
  take count (List.filter is_prime (N.of_nat <$> seq 2 400)).

Fixpoint cube_root_bits (bit : nat) (n r : N) : N :=
  match bit with
  | O => r
  | S bit' =>
      let r' := r + 2 ^ N.of_nat bit' in
      cube_root_bits bit' n (if r' * r' * r' <=? n then r' else r)
  end.

Definition cube_root (n : N) : N := cube_root_bits 48 n 0.

Definition K256 : list N :=
  Eval vm_compute in (λ p, w32 (cube_root (p * 2 ^ 96))) <$> primes 64.

(** The eight chaining words. *)
Record hstate := HState {
  ha : N; hb : N; hc : N; hd : N; he : N; hf : N; hg : N; hh : N }.

Definition H256 : hstate :=
  Eval vm_compute in
    match (λ p, w32 (N.sqrt (p * 2 ^ 64))) <$> primes 8 with
    | [a; b; c; d; e; f; g; h] => HState a b c d e f g h
    | _ => HState 0 0 0 0 0 0 0 0
    end.

Fixpoint words_of_bytes (bs : list N) : list N :=
  match bs with
  | a :: b :: c :: d :: rest =>
      (a * 0x1000000 + b * 0x10000 + c * 0x100 + d) :: words_of_bytes rest
  | _ => []
  end.

(** Message schedule, most recent word first: [wrev] holds W[t-1], W[t-2],
    ... so W[t-2], W[t-7], W[t-15], W[t-16] sit at offsets 1, 6, 14, 15. *)
Fixpoint schedule (n : nat) (wrev : list N) : list N :=
  match n with
  | O => wrev
  | S n' =>
      let w := add32 (add32 (ssig1 (nth 1 wrev 0)) (nth 6 wrev 0))
                     (add32 (ssig0 (nth 14 wrev 0)) (nth 15 wrev 0)) in
      schedule n' (w :: wrev)
  end.

Definition round (s : hstate) (kw : N * N) : hstate :=
  let t1 := add32 (add32 (add32 (hh s) (bsig1 (he s)))
                         (add32 (Ch (he s) (hf s) (hg s)) kw.1)) kw.2 in
  let t2 := add32 (bsig0 (ha s)) (Maj (ha s) (hb s) (hc s)) in
  HState (add32 t1 t2) (ha s) (hb s) (hc s)
         (add32 (hd s) t1) (he s) (hf s) (hg s).

Definition compress (h : hstate) (block : list N) : hstate :=
  let w := rev (schedule 48 (rev (words_of_bytes block))) in
  let s := foldl round h (zip K256 w) in
  HState (add32 (ha h) (ha s)) (add32 (hb h) (hb s))
         (add32 (hc h) (hc s)) (add32 (hd h) (hd s))
         (add32 (he h) (he s)) (add32 (hf h) (hf s))
         (add32 (hg h) (hg s)) (add32 (hh h) (hh s)).

(** Bytes are absorbed one at a time; a full 64-byte block is compressed. *)
Definition absorb (st : hstate * list N) (b : N) : hstate * list N :=
  let cur := b :: st.2 in
  if Nat.eqb (length cur) 64 then (compress st.1 (rev cur), [])
  else (st.1, cur).

Definition be64 (n : N) : list N :=
  (λ i, (n / 2 ^ (8 * i)) mod 256) <$> [7; 6; 5; 4; 3; 2; 1; 0].

Definition pad (msg : list N) : list N :=
  let len := N.of_nat (length msg) in
  msg ++ [0x80] ++ replicate (N.to_nat ((64 - (len + 9) mod 64) mod 64)) 0
      ++ be64 (8 * len).

Definition sha256 (msg : list N) : hstate :=
  (foldl absorb (H256, []) (pad msg)).1.

(** [digest("hex")]: lower-case hexadecimal, eight digits per word. *)
Definition hexdigit (n : N) : codeunit :=
  if n <? 10 then 48 + n else 87 + n.

Definition hex32 (x : N) : jsstring :=
  (λ i, hexdigit ((x / 16 ^ i) mod 16)) <$> [7; 6; 5; 4; 3; 2; 1; 0].

Definition hex_of_hstate (h : hstate) : jsstring :=
  hex32 (ha h) ++ hex32 (hb h) ++ hex32 (hc h) ++ hex32 (hd h) ++
  hex32 (he h) ++ hex32 (hf h) ++ hex32 (hg h) ++ hex32 (hh h).

Definition sha256_hex (value : jsstring) : jsstring :=
  hex_of_hstate (sha256 (utf8 value)).

Definition isHexDigit (c : codeunit) : bool :=
  ((48 <=? c) && (c <=? 57)) || ((97 <=? c) && (c <=? 102)).

End Crypto.

(** ** [Number(s)] and [Number.isFinite] *)

Module Num.
Import JS.

(** A Number is NaN, an infinity, or a finite binary64 value, kept as the
    rational it denotes (in lowest terms; the sign of zero is not observable
    by the comparisons of this program). *)
Inductive jsnumber :=
| NaN
| Infinity (negative : bool)
| Finite (q : Q).

Definition isDigit (c : codeunit) : bool := (48 <=? c) && (c <=? 57).

Definition hexval (c : codeunit) : option N :=
  if isDigit c then Some (c - 48)
  else if (97 <=? c) && (c <=? 102) then Some (c - 87)
  else if (65 <=? c) && (c <=? 70) then Some (c - 55)
  else None.

Definition digitval (base : N) (c : codeunit) : option N :=
  match hexval c with
  | Some d => if d <? base then Some d else None
  | None => None
  end.

(** The longest prefix of decimal digits and what follows it. *)
Fixpoint span_digits (s : jsstring) : jsstring * jsstring :=
  match s with
  | c :: s' =>
      if isDigit c then (c :: (span_digits s').1, (span_digits s').2)
      else ([], s)
  | [] => ([], [])
  end.

Definition decimal_value (ds : jsstring) : Z :=
  foldl (λ acc c, 10 * acc + Z.of_N (c - 48))%Z 0%Z ds.

(** A non-empty run of digits of the given base covering the whole string. *)
Fixpoint radix_value (base : N) (acc : N) (s : jsstring) : option N :=
  match s with
  | [] => Some acc
  | c :: s' =>
      match digitval base c with
      | Some d => radix_value base (acc * base + d) s'
      | None => None
      end
  end.

Definition round_half_even (n d : Z) : Z :=
  let q := (n / d)%Z in
  match (2 * (n mod d) ?= d)%Z with
  | Lt => q
  | Gt => (q + 1)%Z
  | Eq => if Z.even q then q else (q + 1)%Z
  end.

(** The binary64 value nearest to [n / d] (ties to even), for [0 <= n] and
    [0 < d]; [2^1024] and above is an infinity. *)
Definition to_double (negative : bool) (n d : Z) : jsnumber :=
  if (n =? 0)%Z then Finite 0
  else
    let e0 := (Z.log2 n - Z.log2 d)%Z in
    let above :=
      if (0 <=? e0)%Z then (d * 2 ^ e0 <=? n)%Z
      else (d <=? n * 2 ^ (- e0))%Z in
    let e := if above then e0 else (e0 - 1)%Z in
    let p := Z.max (e - 52) (-1074) in
    let m :=
      if (0 <=? p)%Z then round_half_even n (d * 2 ^ p)
      else round_half_even (n * 2 ^ (- p)) d in
    if (m =? 0)%Z then Finite 0
    else if (1024 <=? Z.log2 m + p)%Z then Infinity negative
    else
      let sm := if negative then (- m)%Z else m in
      Finite (Qred (if (0 <=? p)%Z then inject_Z (sm * 2 ^ p)
                    else Qmake sm (Z.to_pos (2 ^ (- p))))).

(** [StrUnsignedDecimalLiteral], [Infinity] apart:
    digits [.] digits? exponent? | [.] digits exponent? | digits exponent? *)
Definition parse_unsigned_decimal (negative : bool) (s : jsstring)
  : jsnumber :=
  let (int_part, r1) := span_digits s in
  let (frac_part, r2) :=
    match r1 with
    | 46 :: r => span_digits r
    | _ => ([], r1)
    end in
  let dot := match r1 with 46 :: _ => true | _ => false end in
  if Nat.eqb (length int_part) 0 && Nat.eqb (length frac_part) 0 then NaN
  else
    let exponent : option Z :=
      match r2 with
      | [] => Some 0%Z
      | c :: r =>
          if (c =? 101) || (c =? 69) then
            let (neg, r') :=
              match r with
              | 43 :: t => (false, t)
              | 45 :: t => (true, t)
              | _ => (false, r)
              end in
            let (ds, rest) := span_digits r' in
            if Nat.eqb (length ds) 0 then None
            else match rest with
                 | [] => Some (if neg then (- decimal_value ds)%Z
                               else decimal_value ds)
                 | _ => None
                 end
          else None
      end in
    match exponent with
    | None => NaN
    | Some ex =>
        let mant := decimal_value (int_part ++ frac_part) in
        let e10 := (ex - Z.of_nat (length frac_part))%Z in
        if (0 <=? e10)%Z then to_double negative (mant * 10 ^ e10) 1
        else to_double negative mant (10 ^ (- e10))
    end.

Definition parse_radix (base : N) (digits : jsstring) : jsnumber :=
  match digits with
  | [] => NaN
  | _ => match radix_value base 0 digits with
         | Some v => to_double false (Z.of_N v) 1
         | None => NaN
         end
  end.

(** [Number(s)] for a string [s] ([StringToNumber]). *)
Definition Number (s : jsstring) : jsnumber :=
  match trim s with
  | [] => Finite 0
  | 48 :: 120 :: r | 48 :: 88 :: r => parse_radix 16 r
  | 48 :: 111 :: r | 48 :: 79 :: r => parse_radix 8 r
  | 48 :: 98 :: r | 48 :: 66 :: r => parse_radix 2 r
  | t =>
      let (negative, u) :=
        match t with
        | 43 :: u => (false, u)
        | 45 :: u => (true, u)
        | _ => (false, t)
        end in
      if streq u (str "Infinity") then Infinity negative
      else parse_unsigned_decimal negative u
  end.

Definition isFinite (n : jsnumber) : bool :=
  match n with Finite _ => true | _ => false end.

(** A non-negative integer (a [length]) as a Number. *)
Definition of_nat (n : nat) : Q := inject_Z (Z.of_nat n).

End Num.

(** ** The data model of [controllers/myControllers.ts] *)

(** [properties] of [interface String]; every member is optional. *)
Module Props.
Record t := Build {
  length : option nat;
  is_palindrome : option bool;
  unique_characters : option nat;
  word_count : option nat;
  sha256_hash : option (list N);
  character_frequency_map : option (gmap N nat) }.
End Props.

(** [interface String]: one stored record; every member is optional. *)
Module Str.
Record t := Build {
  id : option (list N);
  value : option (list N);
  properties : option Props.t;
  created_at : option (list N) }.
End Str.

Module Http.
Import JS.

(** [req.body.value] *)
Inductive body_value :=
| BUndefined
| BNull
| BString (s : jsstring)
| BOther.

(** A value of [req.query]: a string or a nested object, or an array of
    those when the key is repeated. *)
Inductive qelem :=
| EString (s : jsstring)
| EObject.

Inductive qvalue :=
| QOne (e : qelem)
| QMany (l : list qelem).

(** [req.query] of the structured listing. *)
Module Raw.
Record t := Build {
  is_palindrome : option qvalue;
  min_length : option qvalue;
  max_length : option qvalue;
  word_count : option qvalue;
  contains_character : option qvalue }.
End Raw.

(** The members of [req.query] and [req.params] the natural-language
    handler reads. *)
Module NLReq.
Record t := Build {
  query_query : option qvalue;
  query_q : option qvalue;
  params_query : option jsstring;
  params_string : option jsstring }.
End NLReq.

(** [filters_applied] of the structured listing. *)
Record AppliedFilters := {
  af_is_palindrome : option bool;
  af_min_length : option Q;
  af_max_length : option Q;
  af_word_count : option Q;
  af_contains_character : option (jsstring + list jsstring) }.

(** The JSON bodies the handlers send. *)
Inductive payload :=
| PError (error : jsstring)
| PRecord (r : Str.t)
| PListing (data : list Str.t) (count : nat) (filters_applied : AppliedFilters)
| PInterpreted (data : list Str.t) (count : nat) (original : jsstring)
    (parsed_filters : list jsstring) (message : option jsstring)
| PNone.

Record response := Response { status : nat; body : payload }.

(** A handler either runs to its final [res.json] or returns early with
    another response. *)
Inductive result (A : Type) :=
| Ok (a : A)
| Return (r : response).
Arguments Ok {A} a.
Arguments Return {A} r.

#[export] Instance result_ret : MRet result := λ A a, Ok a.
#[export] Instance result_bind : MBind result := λ A B f m,
  match m with
  | Ok a => f a
  | Return r => Return r
  end.

Definition respond (m : result response) : response :=
  match m with
  | Ok r => r
  | Return r => r
  end.

End Http.

(** ** Asynchronous file writes *)

Module Fs.

Inductive write_result := WriteOk | WriteError.

(** What one request does, in order: the file writes it starts and whether
    it waits for them.  A write that is not awaited settles only after the
    handler has run to its end. *)
Inductive action (D A : Type) :=
| Done (a : A)
| Detached (data : D) (k : action D A)
| Await (data : D) (k : write_result → action D A).
Arguments Done {D A} a.
Arguments Detached {D A} data k.
Arguments Await {D A} data k.

Inductive event (D : Type) :=
| Issued (data : D)
| Settled (data : D) (w : write_result)
| Responded.
Arguments Issued {D} data.
Arguments Settled {D} data w.
Arguments Responded {D}.

(** The events of one request in temporal order, for the outcome [w] of its
    write; [pending] are the settlements of writes nobody waits for. *)
Fixpoint run {D A} (a : action D A) (w : write_result)
    (pending : list (event D)) : A * list (event D) :=
  match a with
  | Done r => (r, Responded :: pending)
  | Detached data k =>
      let (r, tr) := run k w (pending ++ [Settled data w]) in
      (r, Issued data :: tr)
  | Await data k =>
      let (r, tr) := run (k w) w pending in
      (r, Issued data :: Settled data w :: tr)
  end.

(** The file after the events: a successful write replaces its content. *)
Fixpoint file_after {D} (file : D) (tr : list (event D)) : D :=
  match tr with
  | [] => file
  | Settled data WriteOk :: tr' => file_after data tr'
  | _ :: tr' => file_after file tr'
  end.

(** The file at the moment the response is sent. *)
Fixpoint file_at_response {D} (file : D) (tr : list (event D)) : D :=
  match tr with
  | [] => file
  | Responded :: _ => file
  | Settled data WriteOk :: tr' => file_at_response data tr'
  | _ :: tr' => file_at_response file tr'
  end.

End Fs.

(** ** The controllers *)

Module Controllers.
Import JS Crypto Num Http Fs.

(** [value.split("").reduce((acc, char) => { acc[char] = (acc[char] || 0) + 1;
    return acc; }, {})] *)
Definition or0 (x : option nat) : nat :=
  match x with
  | Some (S n) => S n
  | _ => 0%nat
  end.

Definition count_char (acc : gmap N nat) (char : codeunit) : gmap N nat :=
  <[char := (or0 (acc !! char) + 1)%nat]> acc.

Definition frequency_map (value : jsstring) : gmap N nat :=
  foldl count_char ∅ value.

(** The property computations of [addString] (lines 68 to 81), in the
    order of the source. *)
Definition derive_length (value : jsstring) : nat := length value.

Definition derive_is_palindrome (value : jsstring) : bool :=
  streq value (rev value).

Definition derive_unique_characters (value : jsstring) : nat :=
  length (remove_dups (string_iterator value)).

Definition derive_word_count (value : jsstring) : nat :=
  if streq (trim value) [] then 0%nat else length (split_ws (trim value)).

Definition derive_properties (value : jsstring) : Props.t :=
  Props.Build (Some (derive_length value))
              (Some (derive_is_palindrome value))
              (Some (derive_unique_characters value))
              (Some (derive_word_count value))
              (Some (sha256_hex value))
              (Some (frequency_map value)).

(** The object pushed on the collection and sent back by [addString]. *)
Definition new_record (value created_at : jsstring) : Str.t :=
  Str.Build (Some (sha256_hex value)) (Some value)
            (Some (derive_properties value)) (Some created_at).

(** [?? 0] and [Boolean(...)] on optional members. *)
Definition prop_length (s : Str.t) : nat :=
  default 0%nat (Str.properties s ≫= Props.length).
Definition prop_word_count (s : Str.t) : nat :=
  default 0%nat (Str.properties s ≫= Props.word_count).
Definition prop_is_palindrome (s : Str.t) : option bool :=
  Str.properties s ≫= Props.is_palindrome.

Definition has_value (value : jsstring) (s : Str.t) : bool :=
  bool_decide (Str.value s = Some value).

Definition object_Object : jsstring := str "[object Object]".

(** [String(p)] *)
Definition String_of_elem (e : qelem) : jsstring :=
  match e with
  | EString s => s
  | EObject => object_Object
  end.

Section Engine.

(** [String.prototype.toLowerCase] (also [_.toLower] on a string) and
    [decodeURIComponent] belong to the runtime; the latter throws on a
    malformed escape, which is [None]. *)
Variable toLowerCase : jsstring → jsstring.
Variable decodeURIComponent : jsstring → option jsstring.

(** [addString]: [now] is [new Date().toISOString()], [strings] is
    [stringStore.strings].  The result carries the collection afterwards. *)
Definition addString (now : jsstring) (strings : list Str.t)
    (value : body_value) : action (list Str.t) (response * list Str.t) :=
  match value with
  | BUndefined | BNull =>
      Done (Response 400 (PError (str "Value is required.")), strings)
  | BOther =>
      Done (Response 422 (PError (str "Value must be a string.")), strings)
  | BString v =>
      let value := toLowerCase v in
      match List.find (has_value value) strings with
      | Some _ =>
          Done (Response 409 (PError (str "String already exists.")), strings)
      | None =>
          let record := new_record value now in
          let strings' := strings ++ [record] in
          Detached strings' (Done (Response 201 (PRecord record), strings'))
      end
  end.

(** [getString] *)
Definition getString (strings : list Str.t) (param : jsstring) : response :=
  let string := toLowerCase param in
  match List.find (has_value string) strings with
  | None => Response 404 (PError (str "String not found."))
  | Some found =>
      Response 200 (PRecord (Str.Build (Str.id found) (Some string)
                               (Str.properties found) (Str.created_at found)))
  end.

(** [deleteString]: the [catch] turns a thrown [URIError] and a rejected
    write into status 500. *)
Definition server_error : response :=
  Response 500 (PError (str "Server error")).

Definition deleteString (strings : list Str.t) (param : option jsstring)
  : action (list Str.t) (response * list Str.t) :=
  match param with
  | None | Some [] => Done (Response 404 PNone, strings)
  | Some string =>
      match decodeURIComponent string with
      | None => Done (server_error, strings)
      | Some decodedString =>
          let lowerString := toLowerCase decodedString in
          match list_find (λ s, has_value lowerString s = true) strings with
          | None => Done (Response 404 PNone, strings)
          | Some (existingIndex, _) =>
              let updatedStrings := delete existingIndex strings in
              Await updatedStrings (λ w,
                match w with
                | WriteOk => Done (Response 204 PNone, updatedStrings)
                | WriteError => Done (server_error, updatedStrings)
                end)
          end
      end
  end.

(** *** [getAllStringsWithFiltering] *)

Definition bad_request (msg : string) : response :=
  Response 400 (PError (str msg)).

(** [is_palindrome]: only the strings "true" and "false", in any case.  A
    value of [req.query] is never a boolean, so the [typeof v === "boolean"]
    branch has no input here. *)
Definition parse_is_palindrome (v : option qvalue) : result (option bool) :=
  match v with
  | None => Ok None
  | Some (QOne (EString v)) =>
      let lower := toLowerCase v in
      if streq lower (str "true") then Ok (Some true)
      else if streq lower (str "false") then Ok (Some false)
      else Return (bad_request "is_palindrome must be 'true' or 'false'")
  | Some _ => Return (bad_request "is_palindrome must be 'true' or 'false'")
  end.

(** [number | undefined | null] *)
Inductive number_param :=
| NUndefined
| NNull
| NNumber (n : Q).

Definition parseNumberParam (p : option qvalue) : number_param :=
  match p with
  | None => NUndefined
  | Some v =>
      let first :=
        match v with
        | QOne e => String_of_elem e
        | QMany (e :: _) => String_of_elem e
        | QMany [] => str "undefined"
        end in
      let s := trim first in
      if streq s [] then NNull
      else match Number s with
           | Finite n => NNumber n
           | _ => NNull
           end
  end.

Definition reject_null (p : number_param) (msg : string) : result (option Q) :=
  match p with
  | NUndefined => Ok None
  | NNull => Return (bad_request msg)
  | NNumber n => Ok (Some n)
  end.

Definition non_empty (s : jsstring) : bool := (0 <? length s)%nat.

Definition parse_contains_character (v : option qvalue)
  : option (list jsstring) :=
  match v with
  | None => None
  | Some v =>
      let contains_character_values :=
        match v with
        | QMany l => List.filter non_empty (trim <$> (String_of_elem <$> l))
        | QOne e =>
            let s := trim (String_of_elem e) in
            if non_empty s then [s] else []
        end in
      if Nat.eqb (length contains_character_values) 0 then None
      else Some contains_character_values
  end.

(** The five filter steps. *)
Definition by_is_palindrome (is_palindrome : bool) (s : Str.t) : bool :=
  Bool.eqb (default false (prop_is_palindrome s)) is_palindrome.
Definition by_min_length (min_length : Q) (s : Str.t) : bool :=
  Qle_bool min_length (of_nat (prop_length s)).
Definition by_max_length (max_length : Q) (s : Str.t) : bool :=
  Qle_bool (of_nat (prop_length s)) max_length.
Definition by_word_count (word_count : Q) (s : Str.t) : bool :=
  Qeq_bool (of_nat (prop_word_count s)) word_count.
Definition by_contains (values : list jsstring) (s : Str.t) : bool :=
  match Str.value s with
  | None => false
  | Some value => existsb (λ val, includes value val) values
  end.

(** [if (x !== undefined) filteredStrings = filteredStrings.filter(...)] *)
Definition step {A} (x : option A) (keep : A → Str.t → bool)
    (filteredStrings : list Str.t) : list Str.t :=
  match x with
  | Some a => List.filter (keep a) filteredStrings
  | None => filteredStrings
  end.

Definition apply_filters (is_palindrome : option bool)
    (min_length max_length word_count : option Q)
    (contains_character_values : option (list jsstring))
    (strings : list Str.t) : list Str.t :=
  step contains_character_values by_contains
    (step word_count by_word_count
      (step max_length by_max_length
        (step min_length by_min_length
          (step is_palindrome by_is_palindrome strings)))).

Definition applied_contains (values : list jsstring)
  : jsstring + list jsstring :=
  match values with
  | [v] => inl v
  | _ => inr values
  end.

Definition getAllStringsWithFiltering (strings : list Str.t) (raw : Raw.t)
  : response :=
  respond (
    is_palindrome ← parse_is_palindrome (Raw.is_palindrome raw);
    let min_length := parseNumberParam (Raw.min_length raw) in
    let max_length := parseNumberParam (Raw.max_length raw) in
    let word_count := parseNumberParam (Raw.word_count raw) in
    min_length ← reject_null min_length "min_length must be a valid number";
    max_length ← reject_null max_length "max_length must be a valid number";
    word_count ← reject_null word_count "word_count must be a valid number";
    _ ← match min_length, max_length with
        | Some lo, Some hi =>
            if negb (Qle_bool lo hi)
            then Return
                   (bad_request "min_length cannot be greater than max_length")
            else Ok ()
        | _, _ => Ok ()
        end;
    let contains_character_values :=
      parse_contains_character (Raw.contains_character raw) in
    let filteredStrings :=
      apply_filters is_palindrome min_length max_length word_count
                    contains_character_values strings in
    Ok (Response 200
          (PListing filteredStrings (length filteredStrings)
             {| af_is_palindrome := is_palindrome;
                af_min_length := min_length;
                af_max_length := max_length;
                af_word_count := word_count;
                af_contains_character :=
                  applied_contains <$> contains_character_values |}))).

(** *** [filterByNaturalLanguage] *)

Definition nullish_or {A} (a b : option A) : option A :=
  match a with
  | Some _ => a
  | None => b
  end.

Definition nl_both (s : Str.t) : bool :=
  bool_decide (prop_is_palindrome s = Some true) &&
  Nat.eqb (prop_word_count s) 1.
Definition nl_longer (s : Str.t) : bool := (10 <? prop_length s)%nat.
Definition nl_vowel (s : Str.t) : bool :=
  match Str.value s with
  | Some value =>
      if negb (bool_decide (prop_is_palindrome s = Some true)) then false
      else includes (toLowerCase value) (str "a")
  | None => false
  end.
Definition nl_z (s : Str.t) : bool :=
  match Str.value s with
  | Some value => includes (toLowerCase value) (str "z")
  | None => false
  end.

(** The [switch]: the filter and the [parsed_filters] of each [case];
    [None] is [default]. *)
Definition phrase_single_word_palindromes : jsstring :=
  str "all single word palindromic strings".
Definition phrase_longer_than_10 : jsstring :=
  str "strings longer than 10 characters".
Definition phrase_first_vowel : jsstring :=
  str "palindromic strings that contain the first vowel".
Definition phrase_letter_z : jsstring :=
  str "strings containing the letter z".

Definition interpret (query : jsstring)
  : option ((Str.t → bool) * list jsstring) :=
  if streq query phrase_single_word_palindromes then
    Some (nl_both, [str "is_palindrome: true"; str "word_count: 1"])
  else if streq query phrase_longer_than_10 then
    Some (nl_longer, [str "min_length: 11"])
  else if streq query phrase_first_vowel then
    Some (nl_vowel, [str "is_palindrome: true";
                     str "contains_character: " ++ quoted (str "a")])
  else if streq query phrase_letter_z then
    Some (nl_z, [str "contains_character: " ++ quoted (str "z")])
  else None.

Definition filterByNaturalLanguage (strings : list Str.t) (req : NLReq.t)
  : response :=
  let raw :=
    nullish_or (nullish_or (NLReq.query_query req) (NLReq.query_q req))
      ((λ s, QOne (EString s)) <$>
         nullish_or (NLReq.params_query req) (NLReq.params_string req)) in
  match raw with
  | None => Response 400 (PError (str "Query is required."))
  | Some raw =>
      let queryStr :=
        match raw with
        | QMany l => head l
        | QOne e => Some e
        end in
      match queryStr with
      | Some (EString queryStr) =>
          let original := queryStr in
          let query := toLowerCase (trim queryStr) in
          match interpret query with
          | Some (keep, parsed_filters) =>
              let filteredStrings := List.filter keep strings in
              Response 200
                (PInterpreted filteredStrings (length filteredStrings)
                              original parsed_filters None)
          | None =>
              Response 200
                (PInterpreted [] 0 original []
                   (Some (str "Could not parse natural language query")))
          end
      | _ => Response 400 (PError (str "Query must be a string."))
      end
  end.

End Engine.
End Controllers.

(** ** Reference definitions, after the specification *)

Module Spec.
Import JS Crypto Num Http Fs Controllers.

(** Number of white-space delimited tokens: a token starts at a code unit
    that is not white space and follows white space or the beginning. *)
Fixpoint token_starts (after_space : bool) (s : jsstring) : nat :=
  match s with
  | [] => 0
  | c :: s' =>
      if isWhiteSpace c then token_starts true s'
      else ((if after_space then 1 else 0) + token_starts false s')%nat
  end.

Definition token_count (value : jsstring) : nat := token_starts true value.

(** Whether the last code unit is white space ([before] for no code unit). *)
Fixpoint ends_space (before : bool) (s : jsstring) : bool :=
  match s with
  | [] => before
  | c :: s' => ends_space (isWhiteSpace c) s'
  end.

(** Number of distinct characters, and occurrences of one character. *)
Definition distinct_characters (value : jsstring) : nat :=
  size (list_to_set value : gset N).

Definition occurrences (c : codeunit) (value : jsstring) : nat :=
  length (List.filter (N.eqb c) value).

(** The frequency map of the specification: each character that occurs,
    with its number of occurrences. *)
Definition frequencies_of (value : jsstring) (m : gmap N nat) : Prop :=
  ∀ c, m !! c = if Nat.eqb (occurrences c value) 0 then None
                else Some (occurrences c value).

(** U+1F600, one character outside the basic plane: two code units. *)
Definition grinning_face : jsstring := [0xD83D; 0xDE00].

(** No high surrogate directly followed by a low surrogate. *)
Fixpoint no_surrogate_pair (s : jsstring) : bool :=
  match s with
  | c :: s' =>
      match s' with
      | d :: _ => negb (isHighSurrogate c && isLowSurrogate d)
      | [] => true
      end && no_surrogate_pair s'
  | [] => true
  end.

Section Engine.
Variable toLowerCase : jsstring → jsstring.

(** A record as [addString] creates it, and a collection of such records. *)
Definition inserted (r : Str.t) : Prop :=
  ∃ v now, r = new_record (toLowerCase v) now.

Definition inserted_store (strings : list Str.t) : Prop :=
  Forall inserted strings.

(** A code unit that lower-casing changes. *)
Definition isUpperCase (c : codeunit) : bool :=
  negb (streq (toLowerCase [c]) [c]).

End Engine.

(** A query parameter given once, as text. *)
Definition text (s : string) : option qvalue := Some (QOne (EString (str s))).

Definition no_filters : Raw.t := Raw.Build None None None None None.

(** The structured filters the phrase table stands for. *)
Definition equivalent_filters (query : jsstring) : option Raw.t :=
  if streq query phrase_single_word_palindromes then
    Some (Raw.Build (text "true") None None (text "1") None)
  else if streq query phrase_longer_than_10 then
    Some (Raw.Build None (text "11") None None None)
  else if streq query phrase_first_vowel then
    Some (Raw.Build (text "true") None None None (text "a"))
  else if streq query phrase_letter_z then
    Some (Raw.Build None None None None (text "z"))
  else None.

(** The phrases of the translator's table. *)
Definition phrase_table : list jsstring :=
  [ phrase_single_word_palindromes; phrase_longer_than_10;
    phrase_first_vowel; phrase_letter_z ].

(** [raw'] provides every filter [raw] provides, with the same value. *)
Definition keeps {A} (a b : option A) : Prop := a = None ∨ a = b.

Definition extends (raw raw' : Raw.t) : Prop :=
  keeps (Raw.is_palindrome raw) (Raw.is_palindrome raw') ∧
  keeps (Raw.min_length raw) (Raw.min_length raw') ∧
  keeps (Raw.max_length raw) (Raw.max_length raw') ∧
  keeps (Raw.word_count raw) (Raw.word_count raw') ∧
  keeps (Raw.contains_character raw) (Raw.contains_character raw').

(** The validation part of [getAllStringsWithFiltering] on its own: the
    four parsed parameters, or the early response. *)
Definition in_range (min_length max_length : option Q) : bool :=
  match min_length, max_length with
  | Some lo, Some hi => Qle_bool lo hi
  | _, _ => true
  end.

Definition validate (toLowerCase : jsstring → jsstring) (raw : Raw.t)
  : result (option bool * option Q * option Q * option Q) :=
  is_palindrome ← parse_is_palindrome toLowerCase (Raw.is_palindrome raw);
  min_length ← reject_null (parseNumberParam (Raw.min_length raw))
                 "min_length must be a valid number";
  max_length ← reject_null (parseNumberParam (Raw.max_length raw))
                 "max_length must be a valid number";
  word_count ← reject_null (parseNumberParam (Raw.word_count raw))
                 "word_count must be a valid number";
  if in_range min_length max_length
  then Ok (is_palindrome, min_length, max_length, word_count)
  else Return (bad_request "min_length cannot be greater than max_length").

(** The substrings a [contains_character] parameter provides: every given
    value as text, trimmed, the empty ones left out. *)
Definition elements (v : qvalue) : list qelem :=
  match v with
  | QOne e => [e]
  | QMany l => l
  end.

Definition provided_substrings (v : qvalue) : list jsstring :=
  List.filter non_empty (trim <$> (String_of_elem <$> elements v)).

Definition without_contains (raw : Raw.t) : Raw.t :=
  Raw.Build (Raw.is_palindrome raw) (Raw.min_length raw)
            (Raw.max_length raw) (Raw.word_count raw) None.

(** The text [parseNumberParam] reads from a provided parameter. *)
Definition gives_text (v : option qvalue) (s : jsstring) : Prop :=
  v = Some (QOne (EString s)) ∨ ∃ l, v = Some (QMany (EString s :: l)).

(** Text that is empty after trimming or does not denote a finite number. *)
Definition not_a_number (s : jsstring) : Prop :=
  trim s = [] ∨ isFinite (Number s) = false.

(** The records of a listing or of an interpreted query. *)
Definition data_of (r : response) : option (list Str.t) :=
  match r with
  | Response 200 (PListing data _ _) => Some data
  | Response 200 (PInterpreted data _ _ _ _) => Some data
  | _ => None
  end.

Definition is_validation_error (r : response) : Prop :=
  ∃ msg, r = Response 400 (PError msg).

(** The record a successful insertion reports, and the collection after
    any insertion or deletion. *)
Definition outcome (a : action (list Str.t) (response * list Str.t))
    (w : write_result) : response * list Str.t :=
  (run a w []).1.

Definition trace (a : action (list Str.t) (response * list Str.t))
    (w : write_result) : list (event (list Str.t)) :=
  (run a w []).2.

Definition a_query (s : jsstring) : NLReq.t :=
  NLReq.Build (Some (QOne (EString s))) None None None.

(** A filter that is not provided holds of every record. *)
Definition holds {A} (x : option A) (keep : A → Str.t → bool) (r : Str.t)
  : bool :=
  match x with
  | Some a => keep a r
  | None => true
  end.

(** All provided filters together. *)
Definition satisfies (is_palindrome : option bool)
    (min_length max_length word_count : option Q)
    (contains_character_values : option (list jsstring)) (r : Str.t) : bool :=
  holds is_palindrome by_is_palindrome r &&
  holds min_length by_min_length r &&
  holds max_length by_max_length r &&
  holds word_count by_word_count r &&
  holds contains_character_values by_contains r.

(** The values held by the collection. *)
Definition stored_values (strings : list Str.t) : list (option jsstring) :=
  Str.value <$> strings.

Definition absent (value : jsstring) (strings : list Str.t) : Prop :=
  ∀ r, r ∈ strings → Str.value r ≠ Some value.

(** The mutating requests, each with the outcome of the write it may
    start, and the collection after serving a sequence of them. *)
Inductive mutation :=
| Insert (now : jsstring) (value : body_value) (w : write_result)
| Remove (param : option jsstring) (w : write_result).

Definition serve (toLowerCase : jsstring → jsstring)
    (decodeURIComponent : jsstring → option jsstring)
    (strings : list Str.t) (m : mutation) : list Str.t :=
  match m with
  | Insert now value w =>
      (outcome (addString toLowerCase now strings value) w).2
  | Remove param w =>
      (outcome (deleteString toLowerCase decodeURIComponent strings param)
               w).2
  end.

Definition serve_all (toLowerCase : jsstring → jsstring)
    (decodeURIComponent : jsstring → option jsstring)
    (strings : list Str.t) (ms : list mutation) : list Str.t :=
  foldl (serve toLowerCase decodeURIComponent) strings ms.

(** The writes a request starts. *)
Definition writes_issued {D} (tr : list (event D)) : list D :=
  omap (λ e, match e with Issued data => Some data | _ => None end) tr.

(** The entries of a frequency map and the sum of its counts. *)
Definition total_count (m : gmap N nat) : nat :=
  sum_list ((map_to_list m).*2).

(** A stand-in for [decodeURIComponent] in examples: the identity on strings
    without the escape character [%], which is what the function is
    there; it is applied to such strings only. *)
Definition decode_plain (s : jsstring) : option jsstring :=
  if existsb (N.eqb 37) s then None else Some s.

End Spec.

(** ** Verification *)

Import JS Crypto Num Http Fs Controllers Spec.

(** *** Strings *)

Lemma streq_true (a b : jsstring) : streq a b = true ↔ a = b.
Proof. unfold streq. apply bool_decide_eq_true. Qed.

Lemma streq_refl (a : jsstring) : streq a a = true.
Proof. by apply streq_true. Qed.

Lemma streq_false (a b : jsstring) : streq a b = false ↔ a ≠ b.
Proof. unfold streq. apply bool_decide_eq_false. Qed.

Lemma toLowerASCII_idem s : toLowerASCII (toLowerASCII s) = toLowerASCII s.
Proof.
  unfold toLowerASCII. rewrite <- list_fmap_compose.
  apply list_fmap_ext. intros _ c _. simpl. unfold isUpperASCII.
  destruct ((65 <=? c) && (c <=? 90)) eqn:E; [|by rewrite E].
  apply andb_true_iff in E as [E1 E2].
  apply N.leb_le in E1, E2.
  replace (c + 32 <=? 90) with false by (symmetry; apply N.leb_gt; lia).
  by rewrite andb_false_r.
Qed.

Lemma find_app_last {A} (f : A → bool) (l : list A) (x : A) :
  f x = true → is_Some (List.find f (l ++ [x])).
Proof.
  intros Hx. induction l as [|y l IH]; simpl.
  - rewrite Hx. eauto.
  - destruct (f y); eauto.
Qed.

(** C7. Inserting a value that is not yet stored succeeds with status 201;
    inserting the same value again, in any casing, is answered with the
    status 409 duplicate error and leaves the collection as the first
    insertion made it: one record longer than before. *)
Theorem duplicate_insert_rejected
    (toLowerCase : jsstring → jsstring) (now now' s s' : jsstring)
    (strings : list Str.t) (w w' : write_result) :
  toLowerCase s = toLowerCase s' →
  List.find (has_value (toLowerCase s)) strings = None →
  let first := outcome (addString toLowerCase now strings (BString s)) w in
  let second :=
    outcome (addString toLowerCase now' first.2 (BString s')) w' in
  first.1 = Response 201 (PRecord (new_record (toLowerCase s) now)) ∧
  second.1 = Response 409 (PError (str "String already exists.")) ∧
  second.2 = first.2 ∧
  length second.2 = S (length strings).
Proof.
  intros Hcase Hfresh. unfold outcome. simpl. rewrite Hfresh. simpl.
  rewrite <- Hcase.
  destruct (find_app_last (has_value (toLowerCase s)) strings
              (new_record (toLowerCase s) now)) as [r Hr].
  { unfold has_value. by apply bool_decide_eq_true. }
  rewrite Hr. simpl. repeat split; try done.
  rewrite length_app. simpl. lia.
Qed.

Lemma duplicate_insert_rejected_witness :
  let first :=
    outcome (addString toLowerASCII (str "t0") [] (BString (str "Racecar")))
            WriteOk in
  let second :=
    outcome (addString toLowerASCII (str "t1") first.2
               (BString (str "racecar"))) WriteOk in
  first.1 = Response 201 (PRecord (new_record (str "racecar") (str "t0"))) ∧
  second.1 = Response 409 (PError (str "String already exists.")) ∧
  second.2 = first.2 ∧
  length second.2 = 1%nat.
Proof.
  apply (duplicate_insert_rejected toLowerASCII (str "t0") (str "t1")
           (str "Racecar") (str "racecar") [] WriteOk WriteOk);
    reflexivity.
Defined.

(** *** The natural-language translator *)

Lemma interpret_unknown (toLowerCase : jsstring → jsstring) query :
  query ∉ phrase_table → interpret toLowerCase query = None.
Proof.
  intros Hnot. unfold interpret.
  repeat match goal with
  | |- context [streq query ?p] =>
      destruct (streq query p) eqn:E;
      [ apply streq_true in E; exfalso; apply Hnot; rewrite E;
        unfold phrase_table; set_solver
      | clear E ]
  end.
  reflexivity.
Qed.

Lemma interpret_known (toLowerCase : jsstring → jsstring) query :
  query ∈ phrase_table → is_Some (interpret toLowerCase query).
Proof.
  unfold phrase_table. rewrite !elem_of_cons, elem_of_nil.
  intros [-> | [-> | [-> | [-> | []]]]]; vm_compute; eauto.
Qed.

(** C8. A query string whose trimmed, lower-cased form is not one of the
    four phrases of the table is answered with status 200, no records, count
    0, the query string as given, no parsed filters and the message "Could
    not parse natural language query", whatever the collection holds; a
    request without any query string is answered with status 400 "Query is
    required.". *)
Theorem unrecognised_phrase_is_empty_result
    (toLowerCase : jsstring → jsstring) (strings : list Str.t)
    (s : jsstring) (v : qvalue) (q : option qvalue)
    (pq ps : option jsstring) :
  (v = QOne (EString s) ∨ ∃ l, v = QMany (EString s :: l)) →
  toLowerCase (trim s) ∉ phrase_table →
  filterByNaturalLanguage toLowerCase strings (NLReq.Build (Some v) q pq ps)
  = Response 200
      (PInterpreted [] 0 s []
         (Some (str "Could not parse natural language query")))
  ∧ filterByNaturalLanguage toLowerCase strings
      (NLReq.Build None None None None)
    = Response 400 (PError (str "Query is required.")).
Proof.
  intros Hv Hnot. split; [|reflexivity].
  unfold filterByNaturalLanguage. simpl.
  destruct Hv as [-> | [l ->]]; simpl;
    by rewrite (interpret_unknown _ _ Hnot).
Qed.

Lemma unrecognised_phrase_is_empty_result_witness :
  filterByNaturalLanguage toLowerASCII
    [new_record (str "zebra") (str "t0")]
    (NLReq.Build (Some (QOne (EString (str "What is a palindrome")))) None
       None None)
  = Response 200
      (PInterpreted [] 0 (str "What is a palindrome") []
         (Some (str "Could not parse natural language query")))
  ∧ filterByNaturalLanguage toLowerASCII
      [new_record (str "zebra") (str "t0")]
      (NLReq.Build None None None None)
    = Response 400 (PError (str "Query is required.")).
Proof.
  apply (unrecognised_phrase_is_empty_result toLowerASCII _
           (str "What is a palindrome")).
  - left. reflexivity.
  - intros H. apply list_elem_of_In in H. vm_compute in H.
    destruct H as [H | [H | [H | [H | []]]]]; discriminate H.
Defined.

(** *** Trimming *)

Lemma trimStart_split s : ∃ w, s = w ++ trimStart s ∧ all_space w.
Proof.
  induction s as [|c s [w [Hs Hw]]]; simpl.
  - exists []. split; [done | constructor].
  - destruct (isWhiteSpace c) eqn:E.
    + exists (c :: w). split; [simpl; congruence | by constructor].
    + exists []. split; [done | constructor].
Qed.

Lemma trimStart_clean s : starts_clean (trimStart s).
Proof.
  induction s as [|c s IH]; simpl; [done|].
  destruct (isWhiteSpace c) eqn:E; [done | simpl; done].
Qed.

Lemma trimStart_id s : starts_clean s → trimStart s = s.
Proof. destruct s as [|c s]; simpl; [done | by intros ->]. Qed.

Lemma trimEnd_split s : ∃ w, s = trimEnd s ++ w ∧ all_space w.
Proof.
  destruct (trimStart_split (rev s)) as [w [Hs Hw]].
  exists (rev w). split.
  - unfold trimEnd. rewrite <- rev_app_distr, <- Hs. by rewrite rev_involutive.
  - by apply List.Forall_rev.
Qed.

Lemma trimEnd_ends_clean s : starts_clean (rev (trimEnd s)).
Proof. unfold trimEnd. rewrite rev_involutive. apply trimStart_clean. Qed.

Lemma trimEnd_id s : starts_clean (rev s) → trimEnd s = s.
Proof.
  intros H. unfold trimEnd. rewrite (trimStart_id _ H).
  apply rev_involutive.
Qed.

Lemma trimEnd_starts_clean s : starts_clean s → starts_clean (trimEnd s).
Proof.
  intros H. destruct (trimEnd_split s) as [w [Hs _]].
  destruct (trimEnd s) as [|c t] eqn:E; [done|].
  rewrite Hs in H. exact H.
Qed.

Lemma trim_split s :
  ∃ w1 w2, s = w1 ++ trim s ++ w2 ∧ all_space w1 ∧ all_space w2.
Proof.
  destruct (trimStart_split s) as [w1 [H1 Hw1]].
  destruct (trimEnd_split (trimStart s)) as [w2 [H2 Hw2]].
  exists w1, w2. unfold trim. by rewrite <- H2.
Qed.

Lemma trim_idem s : trim (trim s) = trim s.
Proof.
  unfold trim at 1.
  rewrite (trimStart_id (trim s)).
  - apply trimEnd_id. apply trimEnd_ends_clean.
  - apply trimEnd_starts_clean, trimStart_clean.
Qed.

Lemma trim_keeps (c : codeunit) s :
  isWhiteSpace c = false → c ∈ s → c ∈ trim s.
Proof.
  intros Hc Hin. destruct (trim_split s) as [w1 [w2 [Hs [H1 H2]]]].
  rewrite Hs in Hin. rewrite !elem_of_app in Hin.
  destruct Hin as [Hin | [Hin | Hin]]; [|done|].
  - unfold all_space in H1. rewrite Forall_forall in H1.
    specialize (H1 _ Hin). congruence.
  - unfold all_space in H2. rewrite Forall_forall in H2.
    specialize (H2 _ Hin). congruence.
Qed.

Lemma Number_trim s : Number (trim s) = Number s.
Proof. unfold Number. by rewrite trim_idem. Qed.

(** *** Substring search *)

Lemma startsWith_prefix p s : startsWith p s = true ↔ ∃ b, s = p ++ b.
Proof.
  revert s. induction p as [|a p IH]; intros s; simpl.
  - split; [intros _; by exists s | done].
  - destruct s as [|c s].
    + split; [done | intros [b Hb]; discriminate Hb].
    + rewrite andb_true_iff, N.eqb_eq, IH. split.
      * intros [-> [b ->]]. by exists b.
      * intros [b Hb]. injection Hb as -> ->. eauto.
Qed.

(** [includes] finds exactly the contiguous occurrences. *)
Lemma includes_infix s p : includes s p = true ↔ ∃ a b, s = a ++ p ++ b.
Proof.
  induction s as [|c s IH]; simpl.
  - rewrite orb_false_r, startsWith_prefix. split.
    + intros [b Hb]. by exists [], b.
    + intros [a [b Hab]]. symmetry in Hab.
      apply app_eq_nil in Hab as [-> Hab].
      apply app_eq_nil in Hab as [-> ->]. by exists [].
  - rewrite orb_true_iff, startsWith_prefix, IH. split.
    + intros [[b Hb] | [a [b Hab]]].
      * by exists [], b.
      * exists (c :: a), b. simpl. by rewrite Hab.
    + intros [a [b Hab]]. destruct a as [|x a]; simpl in Hab.
      * left. by exists b.
      * right. injection Hab as -> ->. by exists a, b.
Qed.

Lemma includes_elem s p (c : codeunit) :
  includes s p = true → c ∈ p → c ∈ s.
Proof.
  rewrite includes_infix. intros [a [b ->]] Hc.
  rewrite !elem_of_app. auto.
Qed.

(** *** The structured filter engine *)

Lemma getAll_validate (toLowerCase : jsstring → jsstring) strings raw :
  getAllStringsWithFiltering toLowerCase strings raw =
  match validate toLowerCase raw with
  | Return r => r
  | Ok (is_palindrome, min_length, max_length, word_count) =>
      let values := parse_contains_character (Raw.contains_character raw) in
      let filteredStrings :=
        apply_filters is_palindrome min_length max_length word_count
                      values strings in
      Response 200
        (PListing filteredStrings (length filteredStrings)
           {| af_is_palindrome := is_palindrome;
              af_min_length := min_length;
              af_max_length := max_length;
              af_word_count := word_count;
              af_contains_character := applied_contains <$> values |})
  end.
Proof.
  unfold getAllStringsWithFiltering, validate.
  destruct (parse_is_palindrome _ _) as [ip|r]; simpl; [|done].
  destruct (reject_null (parseNumberParam (Raw.min_length raw)) _)
    as [mn|r]; simpl; [|done].
  destruct (reject_null (parseNumberParam (Raw.max_length raw)) _)
    as [mx|r]; simpl; [|done].
  destruct (reject_null (parseNumberParam (Raw.word_count raw)) _)
    as [wc|r]; simpl; [|done].
  destruct mn as [lo|], mx as [hi|]; simpl; try done.
  by destruct (Qle_bool lo hi).
Qed.

Lemma parse_is_palindrome_return (toLowerCase : jsstring → jsstring) v r :
  parse_is_palindrome toLowerCase v = Return r → is_validation_error r.
Proof.
  unfold parse_is_palindrome, is_validation_error, bad_request.
  destruct v as [[[s|]|l]|]; try (intros [= <-]; eauto); try done.
  destruct (streq _ _); [done|]. destruct (streq _ _); [done|].
  intros [= <-]; eauto.
Qed.

Lemma reject_null_return p msg r :
  reject_null p msg = Return r → p = NNull ∧ is_validation_error r.
Proof.
  destruct p; simpl; try done. intros [= <-].
  split; [done | unfold is_validation_error, bad_request; eauto].
Qed.

Lemma validate_return (toLowerCase : jsstring → jsstring) raw r :
  validate toLowerCase raw = Return r → is_validation_error r.
Proof.
  unfold validate.
  destruct (parse_is_palindrome _ _) as [ip|r0] eqn:E0; simpl.
  2: { intros [= <-]. by eapply parse_is_palindrome_return. }
  destruct (reject_null (parseNumberParam (Raw.min_length raw)) _)
    as [mn|r1] eqn:E1; simpl.
  2: { intros [= <-]. by eapply reject_null_return. }
  destruct (reject_null (parseNumberParam (Raw.max_length raw)) _)
    as [mx|r2] eqn:E2; simpl.
  2: { intros [= <-]. by eapply reject_null_return. }
  destruct (reject_null (parseNumberParam (Raw.word_count raw)) _)
    as [wc|r3] eqn:E3; simpl.
  2: { intros [= <-]. by eapply reject_null_return. }
  destruct (in_range mn mx); [done|].
  intros [= <-]. unfold is_validation_error, bad_request. eauto.
Qed.

Lemma validate_ok (toLowerCase : jsstring → jsstring) raw ip mn mx wc :
  validate toLowerCase raw = Ok (ip, mn, mx, wc) ↔
  parse_is_palindrome toLowerCase (Raw.is_palindrome raw) = Ok ip ∧
  reject_null (parseNumberParam (Raw.min_length raw))
    "min_length must be a valid number" = Ok mn ∧
  reject_null (parseNumberParam (Raw.max_length raw))
    "max_length must be a valid number" = Ok mx ∧
  reject_null (parseNumberParam (Raw.word_count raw))
    "word_count must be a valid number" = Ok wc ∧
  in_range mn mx = true.
Proof.
  unfold validate. split.
  - destruct (parse_is_palindrome _ _) as [ip0|]; simpl; [|done].
    destruct (reject_null (parseNumberParam (Raw.min_length raw)) _)
      as [mn0|]; simpl; [|done].
    destruct (reject_null (parseNumberParam (Raw.max_length raw)) _)
      as [mx0|]; simpl; [|done].
    destruct (reject_null (parseNumberParam (Raw.word_count raw)) _)
      as [wc0|]; simpl; [|done].
    destruct (in_range mn0 mx0) eqn:E; [|done].
    by intros [= <- <- <- <-].
  - intros (-> & -> & -> & -> & Hr). simpl. by rewrite Hr.
Qed.

Lemma data_of_getAll (toLowerCase : jsstring → jsstring) strings raw d :
  data_of (getAllStringsWithFiltering toLowerCase strings raw) = Some d ↔
  ∃ ip mn mx wc,
    validate toLowerCase raw = Ok (ip, mn, mx, wc) ∧
    d = apply_filters ip mn mx wc
          (parse_contains_character (Raw.contains_character raw)) strings.
Proof.
  rewrite getAll_validate.
  destruct (validate toLowerCase raw) as [[[[ip mn] mx] wc]|r] eqn:E.
  - simpl. split.
    + intros [= <-]. by exists ip, mn, mx, wc.
    + intros (? & ? & ? & ? & [= <- <- <- <-] & ->). done.
  - split.
    + destruct (validate_return _ _ _ E) as [msg ->]. done.
    + intros (? & ? & ? & ? & ? & _). done.
Qed.

Lemma filter_sublist {A} (f : A → bool) (l : list A) :
  List.filter f l `sublist_of` l.
Proof.
  induction l as [|x l IH]; simpl; [done|].
  destruct (f x); [by apply sublist_skip | by apply sublist_cons].
Qed.

Lemma sublist_filter {A} (f : A → bool) (l1 l2 : list A) :
  l1 `sublist_of` l2 → List.filter f l1 `sublist_of` List.filter f l2.
Proof.
  induction 1 as [|x l1 l2 _ IH|x l1 l2 _ IH]; simpl; [done| |].
  - destruct (f x); [by apply sublist_skip | done].
  - destruct (f x); [by apply sublist_cons | done].
Qed.

Lemma step_sublist {A} (x : option A) keep l : step x keep l `sublist_of` l.
Proof. destruct x; simpl; [apply filter_sublist | done]. Qed.

Lemma step_mono {A} (x x' : option A) keep l l' :
  keeps x x' → l' `sublist_of` l →
  step x' keep l' `sublist_of` step x keep l.
Proof.
  intros [-> | <-] Hl.
  - simpl. etrans; [apply step_sublist | done].
  - destruct x; simpl; [by apply sublist_filter | done].
Qed.

Lemma apply_filters_sublist ip mn mx wc cc strings :
  apply_filters ip mn mx wc cc strings `sublist_of` strings.
Proof. unfold apply_filters. repeat (etrans; [apply step_sublist|]). done. Qed.

Lemma apply_filters_mono ip mn mx wc cc ip' mn' mx' wc' cc' strings :
  keeps ip ip' → keeps mn mn' → keeps mx mx' → keeps wc wc' →
  keeps cc cc' →
  apply_filters ip' mn' mx' wc' cc' strings
    `sublist_of` apply_filters ip mn mx wc cc strings.
Proof.
  intros. unfold apply_filters. repeat (apply step_mono; [done|]). done.
Qed.

Lemma keeps_is_palindrome (toLowerCase : jsstring → jsstring) v v' ip ip' :
  keeps v v' →
  parse_is_palindrome toLowerCase v = Ok ip →
  parse_is_palindrome toLowerCase v' = Ok ip' →
  keeps ip ip'.
Proof.
  intros [-> | <-]; simpl.
  - intros [= <-] _. by left.
  - intros -> [= <-]. by right.
Qed.

Lemma keeps_number v v' msg x x' :
  keeps v v' →
  reject_null (parseNumberParam v) msg = Ok x →
  reject_null (parseNumberParam v') msg = Ok x' →
  keeps x x'.
Proof.
  intros [-> | <-]; simpl.
  - intros [= <-] _. by left.
  - intros -> [= <-]. by right.
Qed.

Lemma keeps_contains v v' :
  keeps v v' →
  keeps (parse_contains_character v) (parse_contains_character v').
Proof. intros [-> | <-]; [by left | by right]. Qed.

(** C9. When a set of filter parameters passes validation and a second set
    that provides the same filters and possibly more passes it too, the
    records listed for the second set form a sub-sequence of those listed
    for the first, so their count is not larger; the records listed are
    always a sub-sequence of the collection. *)
Theorem additional_filter_narrows
    (toLowerCase : jsstring → jsstring) (strings : list Str.t)
    (raw raw' : Raw.t) (d d' : list Str.t) :
  extends raw raw' →
  data_of (getAllStringsWithFiltering toLowerCase strings raw) = Some d →
  data_of (getAllStringsWithFiltering toLowerCase strings raw') = Some d' →
  d' `sublist_of` d ∧ (length d' ≤ length d)%nat ∧ d `sublist_of` strings.
Proof.
  intros (Hip & Hmn & Hmx & Hwc & Hcc).
  rewrite !data_of_getAll.
  intros (ip & mn & mx & wc & Hv & ->) (ip' & mn' & mx' & wc' & Hv' & ->).
  apply validate_ok in Hv as (Pip & Pmn & Pmx & Pwc & _).
  apply validate_ok in Hv' as (Pip' & Pmn' & Pmx' & Pwc' & _).
  assert (apply_filters ip' mn' mx' wc'
            (parse_contains_character (Raw.contains_character raw')) strings
          `sublist_of`
          apply_filters ip mn mx wc
            (parse_contains_character (Raw.contains_character raw)) strings)
    as Hsub.
  { apply apply_filters_mono.
    - exact (keeps_is_palindrome _ _ _ _ _ Hip Pip Pip').
    - exact (keeps_number _ _ _ _ _ Hmn Pmn Pmn').
    - exact (keeps_number _ _ _ _ _ Hmx Pmx Pmx').
    - exact (keeps_number _ _ _ _ _ Hwc Pwc Pwc').
    - by apply keeps_contains. }
  split; [done|]. split; [by apply sublist_length|].
  apply apply_filters_sublist.
Qed.

Lemma additional_filter_narrows_witness :
  let strings :=
    [new_record (str "zebra") (str "t0"); new_record (str "apple") (str "t1")]
  in
  [new_record (str "zebra") (str "t0")] `sublist_of` strings ∧
  (1 ≤ 2)%nat ∧ strings `sublist_of` strings.
Proof.
  intros strings.
  apply (additional_filter_narrows toLowerASCII strings no_filters
           (Raw.Build None None None None (text "z"))).
  - unfold extends, keeps. simpl. tauto.
  - reflexivity.
  - vm_compute. reflexivity.
Defined.

Lemma parse_contains_provided v :
  parse_contains_character (Some v) =
  match provided_substrings v with
  | [] => None
  | subs => Some subs
  end.
Proof.
  unfold parse_contains_character, provided_substrings.
  destruct v as [e|l]; simpl.
  - destruct (non_empty (trim (String_of_elem e))); reflexivity.
  - destruct (List.filter _ _); reflexivity.
Qed.

Lemma by_contains_true subs r :
  by_contains subs r = true ↔
  ∃ value sub a b,
    Str.value r = Some value ∧ sub ∈ subs ∧ value = a ++ sub ++ b.
Proof.
  unfold by_contains. destruct (Str.value r) as [value|].
  - rewrite existsb_exists. split.
    + intros (sub & Hin & Hinc). apply includes_infix in Hinc as (a & b & ->).
      exists (a ++ sub ++ b), sub, a, b. by rewrite list_elem_of_In.
    + intros (? & sub & a & b & [= <-] & Hin & ->). exists sub.
      rewrite <- list_elem_of_In. split; [done|].
      apply includes_infix. eauto.
  - split; [done | intros (? & ? & ? & ? & ? & _); done].
Qed.

Lemma getAll_no_substrings (toLowerCase : jsstring → jsstring)
    strings ip mn mx wc v :
  provided_substrings v = [] →
  getAllStringsWithFiltering toLowerCase strings
    (Raw.Build ip mn mx wc (Some v)) =
  getAllStringsWithFiltering toLowerCase strings
    (Raw.Build ip mn mx wc None).
Proof.
  intros Hsubs. rewrite !getAll_validate.
  change (validate toLowerCase (Raw.Build ip mn mx wc (Some v)))
    with (validate toLowerCase (Raw.Build ip mn mx wc None)).
  destruct (validate toLowerCase _) as [[[[? ?] ?] ?]|]; [|done].
  simpl Raw.contains_character.
  by rewrite parse_contains_provided, Hsubs.
Qed.

Lemma getAll_substrings (toLowerCase : jsstring → jsstring)
    strings ip mn mx wc v :
  provided_substrings v ≠ [] →
  data_of (getAllStringsWithFiltering toLowerCase strings
             (Raw.Build ip mn mx wc (Some v))) =
  List.filter (by_contains (provided_substrings v)) <$>
    data_of (getAllStringsWithFiltering toLowerCase strings
               (Raw.Build ip mn mx wc None)).
Proof.
  intros Hsubs. rewrite !getAll_validate.
  change (validate toLowerCase (Raw.Build ip mn mx wc (Some v)))
    with (validate toLowerCase (Raw.Build ip mn mx wc None)).
  destruct (validate toLowerCase _) as [[[[? ?] ?] ?]|r] eqn:E.
  - simpl Raw.contains_character. rewrite parse_contains_provided.
    destruct (provided_substrings v); [done|]. reflexivity.
  - destruct (validate_return _ _ _ E) as [msg ->]. reflexivity.
Qed.

(** C5. With [contains_character] provided, let the substrings be the given
    values trimmed, the empty ones left out.  If none is left the response
    is that of the same request without the parameter.  Otherwise the
    listing is the listing of the other filters restricted to the records
    whose value contains at least one of the substrings as a contiguous
    part, and validation fails exactly when it fails without the
    parameter. *)
Theorem contains_character_any_of
    (toLowerCase : jsstring → jsstring) (strings : list Str.t)
    (ip mn mx wc : option qvalue) (v : qvalue) :
  let raw := Raw.Build ip mn mx wc (Some v) in
  let subs := provided_substrings v in
  (subs = [] →
   getAllStringsWithFiltering toLowerCase strings raw =
   getAllStringsWithFiltering toLowerCase strings (without_contains raw)) ∧
  (subs ≠ [] →
   data_of (getAllStringsWithFiltering toLowerCase strings raw) =
   List.filter (by_contains subs) <$>
     data_of (getAllStringsWithFiltering toLowerCase strings
                (without_contains raw))) ∧
  (∀ r, by_contains subs r = true ↔
        ∃ value sub a b,
          Str.value r = Some value ∧ sub ∈ subs ∧ value = a ++ sub ++ b).
Proof.
  intros raw subs. split; [|split].
  - apply getAll_no_substrings.
  - apply getAll_substrings.
  - apply by_contains_true.
Qed.

Lemma contains_character_any_of_witness :
  data_of (getAllStringsWithFiltering toLowerASCII
             [new_record (str "zebra") (str "t0");
              new_record (str "apple") (str "t1");
              new_record (str "kiwi") (str "t2")]
             (Raw.Build None (text "5") None None
                (Some (QMany [EString (str " z "); EString (str "  ");
                              EString (str "pp")]))))
  = Some [new_record (str "zebra") (str "t0");
          new_record (str "apple") (str "t1")].
Proof.
  pose proof (contains_character_any_of toLowerASCII
                [new_record (str "zebra") (str "t0");
                 new_record (str "apple") (str "t1");
                 new_record (str "kiwi") (str "t2")]
                None (text "5") None None
                (QMany [EString (str " z "); EString (str "  ");
                        EString (str "pp")])) as (_ & H & _).
  rewrite H; [reflexivity | discriminate].
Defined.

Lemma parseNumberParam_text v s :
  gives_text v s →
  parseNumberParam v =
  if streq (trim s) [] then NNull
  else match Number s with
       | Finite n => NNumber n
       | _ => NNull
       end.
Proof.
  intros [-> | [l ->]]; simpl; by rewrite Number_trim.
Qed.

Lemma parseNumberParam_invalid v s :
  gives_text v s → not_a_number s → parseNumberParam v = NNull.
Proof.
  intros Hv Hs. rewrite (parseNumberParam_text _ _ Hv).
  destruct Hs as [-> | Hs]; [done|].
  destruct (streq (trim s) []); [done|].
  by destruct (Number s).
Qed.

Lemma parseNumberParam_finite v s x :
  gives_text v s → trim s ≠ [] → Number s = Finite x →
  parseNumberParam v = NNumber x.
Proof.
  intros Hv Hs Hx. rewrite (parseNumberParam_text _ _ Hv), Hx.
  apply streq_false in Hs. by rewrite Hs.
Qed.

Lemma validate_rejects (toLowerCase : jsstring → jsstring) raw :
  parseNumberParam (Raw.min_length raw) = NNull ∨
  parseNumberParam (Raw.max_length raw) = NNull ∨
  parseNumberParam (Raw.word_count raw) = NNull ∨
  (∃ x y, parseNumberParam (Raw.min_length raw) = NNumber x ∧
          parseNumberParam (Raw.max_length raw) = NNumber y ∧
          Qle_bool x y = false) →
  ∃ r, validate toLowerCase raw = Return r.
Proof.
  intros H. unfold validate.
  destruct (parse_is_palindrome _ _) as [ip|r0]; simpl; [|eauto].
  destruct (parseNumberParam (Raw.min_length raw)) as [| |x] eqn:Emin;
    simpl; [|eauto|].
  all: destruct (parseNumberParam (Raw.max_length raw)) as [| |y] eqn:Emax;
    simpl; [|eauto|].
  all: destruct (parseNumberParam (Raw.word_count raw)) as [| |z] eqn:Ewc;
    simpl; [|eauto|].
  all: destruct H as [H | [H | [H | (x' & y' & Hx & Hy & Hle)]]];
    try discriminate.
  all: injection Hx as <-; injection Hy as <-; rewrite Hle; eauto.
Qed.

(** C6. If the text given for [min_length], [max_length] or [word_count] is
    empty after trimming or does not denote a finite number (not a numeric
    literal, or an infinity), or if [min_length] and [max_length] are both
    given as numbers with the first greater than the second, then the
    response is a status 400 error, and it is the same for every collection:
    no record takes part in it. *)
Theorem invalid_numeric_parameters_rejected
    (toLowerCase : jsstring → jsstring) (strings : list Str.t)
    (raw : Raw.t) :
  (∃ s, (gives_text (Raw.min_length raw) s ∨
         gives_text (Raw.max_length raw) s ∨
         gives_text (Raw.word_count raw) s) ∧ not_a_number s) ∨
  (∃ a b x y,
     gives_text (Raw.min_length raw) a ∧ gives_text (Raw.max_length raw) b ∧
     trim a ≠ [] ∧ trim b ≠ [] ∧
     Number a = Finite x ∧ Number b = Finite y ∧ (y < x)%Q) →
  is_validation_error
    (getAllStringsWithFiltering toLowerCase strings raw) ∧
  ∀ strings',
    getAllStringsWithFiltering toLowerCase strings' raw =
    getAllStringsWithFiltering toLowerCase strings raw.
Proof.
  intros H.
  destruct (validate_rejects toLowerCase raw) as [r Hr].
  { destruct H as [(s & [Hs | [Hs | Hs]] & Hbad)
                  | (a & b & x & y & Ha & Hb & Ta & Tb & Na & Nb & Hlt)].
    - left. by eapply parseNumberParam_invalid.
    - right; left. by eapply parseNumberParam_invalid.
    - right; right; left. by eapply parseNumberParam_invalid.
    - right; right; right. exists x, y.
      split; [by eapply parseNumberParam_finite|].
      split; [by eapply parseNumberParam_finite|].
      destruct (Qle_bool x y) eqn:E; [|done].
      apply Qle_bool_iff in E. exfalso. by apply (Qlt_not_le y x). }
  split.
  - rewrite getAll_validate, Hr. by eapply validate_return.
  - intros strings'. by rewrite !getAll_validate, Hr.
Qed.

Lemma invalid_numeric_parameters_rejected_witness :
  is_validation_error
    (getAllStringsWithFiltering toLowerASCII
       [new_record (str "zebra") (str "t0")]
       (Raw.Build None (text "5") (text "3") None None)) ∧
  is_validation_error
    (getAllStringsWithFiltering toLowerASCII
       [new_record (str "zebra") (str "t0")]
       (Raw.Build None None None (text "two") None)).
Proof.
  split.
  - apply (invalid_numeric_parameters_rejected toLowerASCII).
    right. exists (str "5"), (str "3"), 5%Q, 3%Q.
    repeat split; try (left; reflexivity); try discriminate.
  - apply (invalid_numeric_parameters_rejected toLowerASCII).
    left. exists (str "two"). split.
    + right; right; left. reflexivity.
    + right. reflexivity.
Defined.

(** *** Stored values are lower-cased *)

Lemma inserted_value (toLowerCase : jsstring → jsstring) r :
  inserted toLowerCase r → ∃ v, Str.value r = Some (toLowerCase v).
Proof. intros (v & now & ->). by exists v. Qed.

Lemma addString_inserted (toLowerCase : jsstring → jsstring)
    now strings value w :
  inserted_store toLowerCase strings →
  inserted_store toLowerCase
    (outcome (addString toLowerCase now strings value) w).2.
Proof.
  intros H. unfold outcome.
  destruct value as [| |v|]; simpl; try done.
  destruct (List.find _ strings); simpl; [done|].
  apply Forall_app. split; [done|].
  constructor; [|constructor]. by exists v, now.
Qed.

Lemma deleteString_inserted (toLowerCase : jsstring → jsstring)
    (decodeURIComponent : jsstring → option jsstring) strings param w :
  inserted_store toLowerCase strings →
  inserted_store toLowerCase
    (outcome (deleteString toLowerCase decodeURIComponent strings param) w).2.
Proof.
  intros H. unfold outcome, deleteString.
  destruct param as [[|c s]|]; simpl; try done.
  destruct (decodeURIComponent (c :: s)); simpl; [|done].
  destruct (list_find _ strings) as [[i r]|]; simpl; [|done].
  assert (inserted_store toLowerCase (delete i strings)).
  { unfold inserted_store in *. rewrite Forall_forall in *.
    intros r' Hr'. apply H. eapply elem_of_sublist; [done|].
    apply sublist_delete. }
  by destruct w.
Qed.

Lemma no_uppercase_match (toLowerCase : jsstring → jsstring) subs r :
  (∀ s c, c ∈ toLowerCase s → isUpperCase toLowerCase c = false) →
  inserted toLowerCase r →
  (∀ sub, sub ∈ subs →
     ∃ c, c ∈ sub ∧ isUpperCase toLowerCase c = true) →
  by_contains subs r = false.
Proof.
  intros Hlow Hr Hup. apply inserted_value in Hr as [v Hv].
  apply not_true_is_false. rewrite by_contains_true.
  intros (value & sub & a & b & Hval & Hin & ->).
  rewrite Hv in Hval. injection Hval as Hval.
  destruct (Hup _ Hin) as (c & Hc & Hcu).
  assert (c ∈ toLowerCase v) as Hcv.
  { rewrite Hval, !elem_of_app. auto. }
  rewrite (Hlow _ _ Hcv) in Hcu. discriminate.
Qed.

Lemma filter_none {A} (f : A → bool) (l : list A) :
  (∀ x, x ∈ l → f x = false) → List.filter f l = [].
Proof.
  induction l as [|x l IH]; simpl; [done|]. intros H.
  rewrite (H x) by left. apply IH. intros y Hy. apply H. by right.
Qed.

(** C10. Assume lower-casing never yields a code unit it would itself
    change (an upper-case letter), and let the collection hold only records
    made by [addString].  If [contains_character] provides at least one
    substring and each provided substring contains an upper-case letter,
    then no provided substring occurs in any stored value, a listing that
    passes validation is empty, and with no other parameter the listing is
    valid and empty. *)
Theorem uppercase_substring_matches_nothing
    (toLowerCase : jsstring → jsstring) (strings : list Str.t)
    (ip mn mx wc : option qvalue) (v : qvalue) :
  (∀ s c, c ∈ toLowerCase s → isUpperCase toLowerCase c = false) →
  inserted_store toLowerCase strings →
  provided_substrings v ≠ [] →
  (∀ sub, sub ∈ provided_substrings v →
     ∃ c, c ∈ sub ∧ isUpperCase toLowerCase c = true) →
  (∀ r value sub, r ∈ strings → Str.value r = Some value →
     sub ∈ provided_substrings v → includes value sub = false) ∧
  (data_of (getAllStringsWithFiltering toLowerCase strings
              (Raw.Build ip mn mx wc (Some v))) = Some [] ∨
   is_validation_error
     (getAllStringsWithFiltering toLowerCase strings
        (Raw.Build ip mn mx wc (Some v)))) ∧
  data_of (getAllStringsWithFiltering toLowerCase strings
             (Raw.Build None None None None (Some v))) = Some [].
Proof.
  intros Hlow Hstore Hne Hup.
  assert (∀ l, l `sublist_of` strings →
               List.filter (by_contains (provided_substrings v)) l = [])
    as Hnone.
  { intros l Hl. apply filter_none. intros r Hr.
    apply (no_uppercase_match toLowerCase); [done| |done].
    unfold inserted_store in Hstore. rewrite Forall_forall in Hstore.
    apply Hstore. by eapply elem_of_sublist. }
  split; [|split].
  - intros r value sub Hr Hval Hsub.
    unfold inserted_store in Hstore. rewrite Forall_forall in Hstore.
    pose proof (no_uppercase_match toLowerCase [sub] r Hlow
                  (Hstore _ Hr)) as H.
    unfold by_contains in H. rewrite Hval in H. simpl in H.
    rewrite orb_false_r in H. apply H.
    intros sub' Hin. apply list_elem_of_singleton in Hin as ->. by apply Hup.
  - rewrite (getAll_substrings toLowerCase strings ip mn mx wc v Hne).
    rewrite getAll_validate.
    destruct (validate toLowerCase _) as [[[[? ?] ?] ?]|r] eqn:E.
    + left. simpl. f_equal. apply Hnone.
      apply (apply_filters_sublist _ _ _ _ None).
    + right. rewrite getAll_validate.
      change (validate toLowerCase (Raw.Build ip mn mx wc (Some v)))
        with (validate toLowerCase (Raw.Build ip mn mx wc None)).
      rewrite E. by eapply validate_return.
  - rewrite (getAll_substrings toLowerCase strings None None None None v Hne).
    simpl. f_equal. by apply Hnone.
Qed.

Lemma toLowerASCII_units s c :
  c ∈ toLowerASCII s → isUpperCase toLowerASCII c = false.
Proof.
  unfold toLowerASCII at 1. rewrite list_elem_of_fmap.
  intros (c' & -> & _). unfold isUpperCase.
  apply negb_false_iff, streq_true.
  change [if isUpperASCII c' then c' + 32 else c']
    with (toLowerASCII [c']).
  apply toLowerASCII_idem.
Qed.

Lemma uppercase_substring_matches_nothing_witness :
  data_of (getAllStringsWithFiltering toLowerASCII
             [new_record (str "zebra") (str "t0")]
             (Raw.Build None None None None
                (Some (QOne (EString (str "Z")))))) = Some [].
Proof.
  apply (uppercase_substring_matches_nothing toLowerASCII
           [new_record (str "zebra") (str "t0")] None None None None
           (QOne (EString (str "Z")))).
  - apply toLowerASCII_units.
  - constructor; [|constructor]. by exists (str "Zebra"), (str "t0").
  - discriminate.
  - intros sub Hsub. apply list_elem_of_In in Hsub. simpl in Hsub.
    destruct Hsub as [<- | []]. exists 90. split; [by left | reflexivity].
Defined.

(** *** The translator against the structured filters *)

Lemma filter_filter {A} (f g : A → bool) (l : list A) :
  List.filter g (List.filter f l) = List.filter (λ x, f x && g x) l.
Proof.
  induction l as [|x l IH]; simpl; [done|].
  destruct (f x); simpl; [|done]. destruct (g x); by rewrite IH.
Qed.

Lemma Qeq_bool_of_nat n (z : Z) :
  Qeq_bool (of_nat n) (inject_Z z) = (Z.of_nat n =? z)%Z.
Proof. unfold Qeq_bool, of_nat. simpl. by rewrite !Z.mul_1_r. Qed.

Lemma Qle_bool_of_nat n (z : Z) :
  Qle_bool (inject_Z z) (of_nat n) = (z <=? Z.of_nat n)%Z.
Proof. unfold Qle_bool, of_nat. simpl. by rewrite !Z.mul_1_r. Qed.

Lemma nl_both_structured r :
  nl_both r = by_is_palindrome true r && by_word_count 1 r.
Proof.
  unfold nl_both, by_is_palindrome, by_word_count.
  change 1%Q with (inject_Z 1). rewrite Qeq_bool_of_nat. f_equal.
  - by destruct (prop_is_palindrome r) as [[|]|].
  - destruct (Nat.eqb_spec (prop_word_count r) 1) as [-> | Hne]; [done|].
    symmetry. apply Z.eqb_neq. lia.
Qed.

Lemma nl_longer_structured r : nl_longer r = by_min_length 11 r.
Proof.
  unfold nl_longer, by_min_length.
  change 11%Q with (inject_Z 11). rewrite Qle_bool_of_nat.
  destruct (Nat.ltb_spec 10 (prop_length r)).
  - symmetry. apply Z.leb_le. lia.
  - symmetry. apply Z.leb_gt. lia.
Qed.

Lemma nl_z_structured (toLowerCase : jsstring → jsstring) r :
  (∀ s, toLowerCase (toLowerCase s) = toLowerCase s) →
  inserted toLowerCase r →
  nl_z toLowerCase r = by_contains [str "z"] r.
Proof.
  intros Hidem Hr. apply inserted_value in Hr as [v Hv].
  unfold nl_z, by_contains. rewrite Hv, Hidem. simpl.
  by rewrite orb_false_r.
Qed.

Lemma nl_vowel_structured (toLowerCase : jsstring → jsstring) r :
  (∀ s, toLowerCase (toLowerCase s) = toLowerCase s) →
  inserted toLowerCase r →
  nl_vowel toLowerCase r =
  by_is_palindrome true r && by_contains [str "a"] r.
Proof.
  intros Hidem Hr. apply inserted_value in Hr as [v Hv].
  unfold nl_vowel, by_is_palindrome, by_contains. rewrite Hv, Hidem. simpl.
  rewrite orb_false_r.
  by destruct (prop_is_palindrome r) as [[|]|].
Qed.

Lemma isASCII_str (s : string) :
  forallb (λ c, c <? 128) (str s) = true → isASCII (str s).
Proof.
  intros H. unfold isASCII. rewrite Forall_forall. intros c Hc.
  rewrite forallb_forall in H. apply N.ltb_lt, H. by apply list_elem_of_In.
Qed.

Lemma natural_language_a_query (toLowerCase : jsstring → jsstring)
    strings s :
  filterByNaturalLanguage toLowerCase strings (a_query s) =
  match interpret toLowerCase (toLowerCase (trim s)) with
  | Some (keep, parsed_filters) =>
      Response 200
        (PInterpreted (List.filter keep strings)
           (length (List.filter keep strings)) s parsed_filters None)
  | None =>
      Response 200
        (PInterpreted [] 0 s []
           (Some (str "Could not parse natural language query")))
  end.
Proof.
  unfold filterByNaturalLanguage, a_query. simpl.
  by destruct (interpret _ _) as [[keep pf]|].
Qed.

Lemma parse_true (toLowerCase : jsstring → jsstring) :
  (∀ s, isASCII s → toLowerCase s = toLowerASCII s) →
  parse_is_palindrome toLowerCase (text "true") = Ok (Some true).
Proof.
  intros Hascii. unfold parse_is_palindrome, text.
  rewrite Hascii by (by apply isASCII_str). reflexivity.
Qed.

(** C3. Assume lower-casing agrees with ASCII lower-casing on ASCII strings
    and is idempotent, and let the collection hold only records made by
    [addString].  For a query string whose trimmed, lower-cased form is one
    of the four phrases, the table of equivalent structured filters has an
    entry, and the translator lists exactly the records, in the same order,
    that [getAllStringsWithFiltering] lists for that entry; for "strings
    longer than 10 characters" these are the records whose length exceeds
    10.  Over the collection of "zebra" and "apple" the phrase "strings
    containing the letter z" lists "zebra" only. *)
Theorem canned_phrase_refines_structured_filter
    (toLowerCase : jsstring → jsstring) (strings : list Str.t)
    (phrase : jsstring) :
  (∀ s, isASCII s → toLowerCase s = toLowerASCII s) →
  (∀ s, toLowerCase (toLowerCase s) = toLowerCase s) →
  inserted_store toLowerCase strings →
  toLowerCase (trim phrase) ∈ phrase_table →
  (∃ raw d,
     equivalent_filters (toLowerCase (trim phrase)) = Some raw ∧
     data_of (filterByNaturalLanguage toLowerCase strings (a_query phrase))
     = Some d ∧
     data_of (getAllStringsWithFiltering toLowerCase strings raw) = Some d ∧
     (toLowerCase (trim phrase) = phrase_longer_than_10 →
      d = List.filter (λ r, (10 <? prop_length r)%nat) strings)) ∧
  (∀ t0 t1,
     data_of (filterByNaturalLanguage toLowerCase
                [new_record (str "zebra") t0; new_record (str "apple") t1]
                (a_query phrase_letter_z))
     = Some [new_record (str "zebra") t0]).
Proof.
  intros Hascii Hidem Hstore Hin. split.
  - rewrite natural_language_a_query.
    unfold inserted_store in Hstore. rewrite Forall_forall in Hstore.
    unfold phrase_table in Hin.
    rewrite !elem_of_cons, elem_of_nil in Hin.
    destruct Hin as [-> | [-> | [-> | [-> | []]]]].
    + eexists _, _. split; [reflexivity|]. split; [reflexivity|].
      split; [|discriminate].
      rewrite getAll_validate. unfold validate.
      simpl Raw.is_palindrome. rewrite (parse_true _ Hascii). simpl.
      f_equal. unfold apply_filters. simpl. rewrite filter_filter.
      apply List.filter_ext. intros r. symmetry. apply nl_both_structured.
    + eexists _, _. split; [reflexivity|]. split; [reflexivity|].
      split; [|reflexivity].
      rewrite getAll_validate. unfold validate. simpl.
      f_equal. unfold apply_filters. simpl.
      apply List.filter_ext. intros r. symmetry. apply nl_longer_structured.
    + eexists _, _. split; [reflexivity|]. split; [reflexivity|].
      split; [|discriminate].
      rewrite getAll_validate. unfold validate.
      simpl Raw.is_palindrome. rewrite (parse_true _ Hascii). simpl.
      f_equal. unfold apply_filters. simpl. rewrite filter_filter.
      apply List.filter_ext_in. intros r Hr. symmetry.
      apply nl_vowel_structured; [done|].
      apply Hstore. by apply list_elem_of_In.
    + eexists _, _. split; [reflexivity|]. split; [reflexivity|].
      split; [|discriminate].
      rewrite getAll_validate. unfold validate. simpl.
      f_equal. unfold apply_filters. simpl.
      apply List.filter_ext_in. intros r Hr. symmetry.
      apply nl_z_structured; [done|].
      apply Hstore. by apply list_elem_of_In.
  - intros t0 t1. rewrite natural_language_a_query.
    change (trim phrase_letter_z) with phrase_letter_z.
    rewrite (Hascii phrase_letter_z) by (by apply isASCII_str).
    change (interpret toLowerCase (toLowerASCII phrase_letter_z))
      with (Some (nl_z toLowerCase,
                  [str "contains_character: " ++ quoted (str "z")])).
    assert (nl_z toLowerCase (new_record (str "zebra") t0) = true) as Hz.
    { unfold nl_z, new_record. cbn [Str.value].
      rewrite (Hascii (str "zebra")) by (by apply isASCII_str).
      reflexivity. }
    assert (nl_z toLowerCase (new_record (str "apple") t1) = false) as Ha.
    { unfold nl_z, new_record. cbn [Str.value].
      rewrite (Hascii (str "apple")) by (by apply isASCII_str).
      reflexivity. }
    cbv beta iota. cbn [List.filter data_of]. rewrite Hz, Ha. reflexivity.
Qed.

Lemma canned_phrase_refines_structured_filter_witness :
  let strings :=
    [new_record (str "zebra") (str "t0"); new_record (str "apple") (str "t1")]
  in
  let phrase := str " Strings containing the letter Z " in
  (∃ raw d,
     equivalent_filters (toLowerASCII (trim phrase)) = Some raw ∧
     data_of (filterByNaturalLanguage toLowerASCII strings (a_query phrase))
     = Some d ∧
     data_of (getAllStringsWithFiltering toLowerASCII strings raw) = Some d ∧
     (toLowerASCII (trim phrase) = phrase_longer_than_10 →
      d = List.filter (λ r, (10 <? prop_length r)%nat) strings)) ∧
  (∀ t0 t1,
     data_of (filterByNaturalLanguage toLowerASCII
                [new_record (str "zebra") t0; new_record (str "apple") t1]
                (a_query phrase_letter_z))
     = Some [new_record (str "zebra") t0]).
Proof.
  intros strings phrase.
  apply (canned_phrase_refines_structured_filter toLowerASCII strings phrase).
  - reflexivity.
  - apply toLowerASCII_idem.
  - constructor; [by exists (str "Zebra"), (str "t0")|].
    constructor; [by exists (str "apple"), (str "t1")|]. constructor.
  - apply list_elem_of_In. right; right; right; left. reflexivity.
Defined.

(** *** Identity of a record *)

(** The digest function on known inputs. *)
Example sha256_hex_empty :
  sha256_hex [] =
  str "e3b0c44298fc1c149afbf4c8996fb92427ae41e4649b934ca495991b7852b855".
Proof. vm_compute. reflexivity. Qed.

Example sha256_hex_abc :
  sha256_hex (str "abc") =
  str "ba7816bf8f01cfea414140de5dae2223b00361a396177a9cb410ff61f20015ad".
Proof. vm_compute. reflexivity. Qed.

Example sha256_hex_two_blocks :
  sha256_hex (replicate 100 97) =
  str "2816597888e4a0d3a36b82b83316ab32680eb8f00f8cd3b904d681246d285a0e".
Proof. vm_compute. reflexivity. Qed.

Example sha256_hex_grinning_face :
  sha256_hex grinning_face =
  str "f0443a342c5ef54783a111b51ba56c938e474c32324d90c3a60c9c8e3a37e2d9".
Proof. vm_compute. reflexivity. Qed.

Lemma hex32_length x : length (hex32 x) = 8%nat.
Proof. reflexivity. Qed.

Lemma sha256_hex_length value : length (sha256_hex value) = 64%nat.
Proof.
  unfold sha256_hex, hex_of_hstate.
  by rewrite !length_app, !hex32_length.
Qed.

Lemma hexdigit_is_hex n : n < 16 → isHexDigit (hexdigit n) = true.
Proof.
  intros Hn. unfold isHexDigit, hexdigit.
  destruct (N.ltb_spec n 10).
  - apply orb_true_iff. left. apply andb_true_iff.
    split; apply N.leb_le; lia.
  - apply orb_true_iff. right. apply andb_true_iff.
    split; apply N.leb_le; lia.
Qed.

Lemma hex32_digits x : forallb isHexDigit (hex32 x) = true.
Proof.
  unfold hex32. simpl.
  rewrite !hexdigit_is_hex; [done|..]; by apply N.mod_lt.
Qed.

Lemma sha256_hex_digits value : forallb isHexDigit (sha256_hex value) = true.
Proof.
  unfold sha256_hex, hex_of_hstate.
  by rewrite !forallb_app, !hex32_digits.
Qed.

Lemma addString_created (toLowerCase : jsstring → jsstring)
    now strings value w r :
  (outcome (addString toLowerCase now strings value) w).1
  = Response 201 (PRecord r) →
  ∃ s, value = BString s ∧ r = new_record (toLowerCase s) now.
Proof.
  unfold outcome. destruct value as [| |s|]; simpl; try done.
  destruct (List.find _ strings); simpl; [done|].
  intros [= <-]. by exists s.
Qed.

(** C2. An accepted insertion of [s] appends one record whose value is the
    lower-cased [s] and whose id is the SHA-256 digest of that value in
    hexadecimal: 64 code units, each a digit or a letter from a to f.  The
    [sha256_hash] property equals the id.  Any insertion, at any time and
    into any collection, of a string with the same lower-cased form creates
    a record with the same id; given that lower-casing is idempotent this
    includes the insertion of the lower-cased [s] itself. *)
Theorem insert_id_is_digest_of_lowercase
    (toLowerCase : jsstring → jsstring) (now s : jsstring)
    (strings : list Str.t) (w : write_result) :
  (∀ t, toLowerCase (toLowerCase t) = toLowerCase t) →
  List.find (has_value (toLowerCase s)) strings = None →
  ∃ r,
    outcome (addString toLowerCase now strings (BString s)) w
    = (Response 201 (PRecord r), strings ++ [r]) ∧
    Str.value r = Some (toLowerCase s) ∧
    Str.id r = Some (sha256_hex (toLowerCase s)) ∧
    length (sha256_hex (toLowerCase s)) = 64%nat ∧
    forallb isHexDigit (sha256_hex (toLowerCase s)) = true ∧
    Str.properties r ≫= Props.sha256_hash = Str.id r ∧
    (∀ now' strings' s' w' r',
       toLowerCase s' = toLowerCase s →
       (outcome (addString toLowerCase now' strings' (BString s')) w').1
       = Response 201 (PRecord r') →
       Str.id r' = Str.id r) ∧
    (∀ now' strings' w' r',
       (outcome (addString toLowerCase now' strings'
                   (BString (toLowerCase s))) w').1
       = Response 201 (PRecord r') →
       Str.id r' = Str.id r).
Proof.
  intros Hidem Hfresh. exists (new_record (toLowerCase s) now).
  split_and!.
  - unfold outcome. simpl. by rewrite Hfresh.
  - reflexivity.
  - reflexivity.
  - apply sha256_hex_length.
  - apply sha256_hex_digits.
  - reflexivity.
  - intros now' strings' s' w' r' Hcase Hr'.
    apply addString_created in Hr' as (s0 & [= <-] & ->).
    simpl. by rewrite Hcase.
  - intros now' strings' w' r' Hr'.
    apply addString_created in Hr' as (s0 & [= <-] & ->).
    simpl. by rewrite Hidem.
Qed.

Lemma insert_id_is_digest_of_lowercase_witness :
  ∃ r,
    outcome (addString toLowerASCII (str "t0") [] (BString (str "RaceCar")))
            WriteOk
    = (Response 201 (PRecord r), [r]) ∧
    Str.value r = Some (str "racecar") ∧
    Str.id r =
      Some (str
        "e00f9ef51a95f6e854862eed28dc0f1a68f154d9f75ddd841ab00de6ede9209b").
Proof.
  destruct (insert_id_is_digest_of_lowercase toLowerASCII (str "t0")
              (str "RaceCar") [] WriteOk toLowerASCII_idem eq_refl)
    as (r & Hout & Hval & Hid & _).
  exists r. split; [exact Hout|]. split; [exact Hval|].
  rewrite Hid. vm_compute. reflexivity.
Defined.

(** *** Durability of insertions and deletions *)

(** C4 (insertion). [addString] starts the write of the new collection,
    answers 201 and only then does the write settle: at the time of the
    answer the file still holds the old collection, and when the write
    fails the answer is 201 all the same, the collection in memory has the
    new record and the file has not. *)
Theorem addString_answers_before_write_settles
    (toLowerCase : jsstring → jsstring) (now s : jsstring)
    (strings : list Str.t) (w : write_result) :
  List.find (has_value (toLowerCase s)) strings = None →
  let a := addString toLowerCase now strings (BString s) in
  let r := new_record (toLowerCase s) now in
  trace a w = [Issued (strings ++ [r]); Responded;
               Settled (strings ++ [r]) w] ∧
  file_at_response strings (trace a w) = strings ∧
  outcome a WriteError = (Response 201 (PRecord r), strings ++ [r]) ∧
  file_after strings (trace a WriteError) = strings ∧
  file_after strings (trace a WriteError) ≠ (outcome a WriteError).2.
Proof.
  intros Hfresh a r. unfold a, trace, outcome. simpl. rewrite Hfresh. simpl.
  split_and!; try reflexivity.
  intros H. apply (f_equal length) in H. rewrite length_app in H.
  simpl in H. lia.
Qed.

Lemma addString_answers_before_write_settles_witness :
  let a := addString toLowerASCII (str "t0") [] (BString (str "abc")) in
  let r := new_record (str "abc") (str "t0") in
  trace a WriteError = [Issued [r]; Responded; Settled [r] WriteError] ∧
  file_at_response [] (trace a WriteError) = [] ∧
  outcome a WriteError = (Response 201 (PRecord r), [r]) ∧
  file_after [] (trace a WriteError) = [] ∧
  file_after [] (trace a WriteError) ≠ (outcome a WriteError).2.
Proof.
  apply (addString_answers_before_write_settles toLowerASCII (str "t0")
           (str "abc") [] WriteError).
  reflexivity.
Defined.

(** The sibling path: [deleteString] awaits its write, so the write has
    settled when the answer is sent, and a failed write is answered with
    status 500 (the collection in memory has been changed already). *)
Lemma deleteString_awaits_write
    (toLowerCase : jsstring → jsstring)
    (decodeURIComponent : jsstring → option jsstring)
    (strings : list Str.t) (c : codeunit) (string decoded : jsstring)
    (i : nat) (r : Str.t) (w : write_result) :
  decodeURIComponent (c :: string) = Some decoded →
  list_find (λ s, has_value (toLowerCase decoded) s = true) strings
  = Some (i, r) →
  let a := deleteString toLowerCase decodeURIComponent strings
             (Some (c :: string)) in
  trace a w = [Issued (delete i strings); Settled (delete i strings) w;
               Responded] ∧
  outcome a w =
    (match w with
     | WriteOk => Response 204 PNone
     | WriteError => server_error
     end, delete i strings) ∧
  file_at_response strings (trace a WriteOk) = delete i strings.
Proof.
  intros Hdec Hfind a. unfold a, trace, outcome, deleteString.
  rewrite Hdec, Hfind. simpl. by destruct w.
Qed.

(** *** Derived properties *)

(** C1 (a character outside the basic plane). For the one-character string
    U+1F600 the stored properties disagree with each other: the length is 2
    and the frequency map has two entries, the two code units, while
    [unique_characters] is 1. *)
Theorem astral_character_counted_inconsistently
    (toLowerCase : jsstring → jsstring) (now : jsstring)
    (strings : list Str.t) (w : write_result) :
  toLowerCase grinning_face = grinning_face →
  List.find (has_value grinning_face) strings = None →
  ∃ r p m,
    (outcome (addString toLowerCase now strings (BString grinning_face)) w).1
    = Response 201 (PRecord r) ∧
    Str.properties r = Some p ∧
    Props.length p = Some 2%nat ∧
    Props.unique_characters p = Some 1%nat ∧
    Props.character_frequency_map p = Some m ∧
    size m = 2%nat ∧
    distinct_characters grinning_face = 2%nat.
Proof.
  intros Hlow Hfresh.
  exists (new_record grinning_face now), (derive_properties grinning_face),
         (frequency_map grinning_face).
  unfold outcome. simpl. rewrite Hlow, Hfresh. simpl.
  split_and!; reflexivity.
Qed.

Lemma astral_character_counted_inconsistently_witness :
  ∃ r p m,
    (outcome (addString toLowerASCII (str "t0") []
                (BString grinning_face)) WriteOk).1
    = Response 201 (PRecord r) ∧
    Str.properties r = Some p ∧
    Props.length p = Some 2%nat ∧
    Props.unique_characters p = Some 1%nat ∧
    Props.character_frequency_map p = Some m ∧
    size m = 2%nat ∧
    distinct_characters grinning_face = 2%nat.
Proof.
  apply (astral_character_counted_inconsistently toLowerASCII (str "t0") []
           WriteOk); reflexivity.
Defined.

(** Outside that case the properties are the reference ones. *)

Lemma string_iterator_units value :
  no_surrogate_pair value = true →
  string_iterator value = (λ c, [c]) <$> value.
Proof.
  induction value as [|c s IH]; [done|].
  simpl. destruct s as [|d s'].
  - done.
  - intros H. apply andb_true_iff in H as [Hpair Hrest].
    apply negb_true_iff in Hpair. rewrite Hpair.
    by rewrite (IH Hrest).
Qed.

Lemma remove_dups_units (l : jsstring) :
  length (remove_dups ((λ c, [c]) <$> l)) = length (remove_dups l).
Proof.
  induction l as [|x l IH]; [done|].
  assert ([x] ∈ (λ c, [c]) <$> l ↔ x ∈ l) as Hiff.
  { rewrite list_elem_of_fmap. split.
    - by intros (y & [= ->] & Hy).
    - intros Hx. by exists x. }
  rewrite fmap_cons. cbn [remove_dups].
  destruct (decide_rel elem_of [x] _) as [H1|H1],
           (decide_rel elem_of x l) as [H2|H2];
    cbn [length]; rewrite ?IH; tauto || lia.
Qed.

Lemma distinct_characters_remove_dups value :
  distinct_characters value = length (remove_dups value).
Proof.
  unfold distinct_characters.
  rewrite <- (size_list_to_set (C := gset N) (remove_dups value))
    by apply NoDup_remove_dups.
  f_equal. apply set_eq. intros c.
  by rewrite !elem_of_list_to_set, elem_of_remove_dups.
Qed.

Lemma unique_characters_reference value :
  no_surrogate_pair value = true →
  derive_unique_characters value = distinct_characters value.
Proof.
  intros H. unfold derive_unique_characters.
  by rewrite (string_iterator_units _ H), remove_dups_units,
    distinct_characters_remove_dups.
Qed.

Lemma occurrences_snoc c c' value :
  occurrences c (value ++ [c']) =
  (occurrences c value + if N.eqb c c' then 1 else 0)%nat.
Proof.
  unfold occurrences. rewrite List.filter_app, length_app. simpl.
  by destruct (N.eqb c c').
Qed.

Lemma count_char_frequencies value acc c :
  frequencies_of value acc → frequencies_of (value ++ [c]) (count_char acc c).
Proof.
  intros H c'. unfold count_char. rewrite occurrences_snoc.
  destruct (N.eqb_spec c' c) as [-> | Hne].
  - rewrite lookup_insert_eq, (H c).
    destruct (occurrences c value) as [|n]; simpl; [done|].
    by rewrite Nat.add_1_r.
  - rewrite lookup_insert_ne by done. rewrite (H c'), Nat.add_0_r. done.
Qed.

Lemma foldl_count_char value pre acc :
  frequencies_of pre acc →
  frequencies_of (pre ++ value) (foldl count_char acc value).
Proof.
  revert pre acc. induction value as [|c s IH]; intros pre acc H; simpl.
  - by rewrite app_nil_r.
  - replace (pre ++ c :: s) with ((pre ++ [c]) ++ s)
      by (by rewrite <- app_assoc).
    apply IH. by apply count_char_frequencies.
Qed.

Lemma frequency_map_reference value :
  frequencies_of value (frequency_map value).
Proof.
  apply (foldl_count_char value [] ∅). intros c. by rewrite lookup_empty.
Qed.

Lemma split_ws_go_length cur inws s :
  (length (split_ws_go cur inws s) + (if inws then 1 else 0) =
   token_starts inws s + 1 + (if ends_space inws s then 1 else 0))%nat.
Proof.
  revert cur inws. induction s as [|c s IH]; intros cur inws; simpl.
  - destruct inws; simpl; lia.
  - destruct (isWhiteSpace c) eqn:E.
    + destruct inws; simpl.
      * specialize (IH cur true). simpl in IH. lia.
      * specialize (IH [] true). simpl in IH. lia.
    + specialize (IH (c :: cur) false). simpl in IH.
      destruct inws; simpl; lia.
Qed.

Lemma ends_space_snoc before s c :
  ends_space before (s ++ [c]) = isWhiteSpace c.
Proof. revert before. induction s as [|x s IH]; intros before; simpl; auto. Qed.

Lemma ends_space_clean s :
  s ≠ [] → starts_clean (rev s) → ends_space false s = false.
Proof.
  intros Hne Hclean. destruct (rev s) as [|c r] eqn:E.
  - exfalso. apply Hne. apply (f_equal (@rev N)) in E.
    by rewrite rev_involutive in E.
  - apply (f_equal (@rev N)) in E. rewrite rev_involutive in E. simpl in E.
    rewrite E, ends_space_snoc. exact Hclean.
Qed.

Lemma token_starts_space_prefix w s :
  all_space w → token_starts true (w ++ s) = token_starts true s.
Proof.
  induction 1 as [|c w Hc _ IH]; simpl; [done|]. by rewrite Hc.
Qed.

Lemma token_starts_all_space before w :
  all_space w → token_starts before w = 0%nat.
Proof.
  intros Hw. revert before.
  induction Hw as [|c w Hc _ IH]; intros before; simpl; [done|].
  by rewrite Hc.
Qed.

Lemma token_starts_space_suffix before s w :
  all_space w → token_starts before (s ++ w) = token_starts before s.
Proof.
  intros Hw. revert before. induction s as [|c s IH]; intros before; simpl.
  - by apply token_starts_all_space.
  - destruct (isWhiteSpace c); by rewrite IH.
Qed.

Lemma word_count_reference value :
  derive_word_count value = token_count value.
Proof.
  unfold derive_word_count, token_count.
  destruct (trim_split value) as (w1 & w2 & Hv & H1 & H2).
  rewrite Hv at 3.
  rewrite token_starts_space_prefix, token_starts_space_suffix by done.
  destruct (trim value) as [|c t] eqn:E; [done|].
  replace (streq (c :: t) []) with false by (symmetry; by apply streq_false).
  assert (isWhiteSpace c = false) as Hc.
  { pose proof (trimEnd_starts_clean _ (trimStart_clean value)) as H.
    fold (trim value) in H. by rewrite E in H. }
  pose proof (split_ws_go_length [] false (c :: t)) as Hlen.
  rewrite ends_space_clean in Hlen.
  - unfold split_ws. simpl in *. rewrite Hc in *. lia.
  - done.
  - rewrite <- E. apply trimEnd_ends_clean.
Qed.

(** The properties of [addString], for a value without surrogate pairs,
    are the length, the palindrome test, the number of distinct
    characters, the number of white-space delimited tokens and the
    occurrence counts. *)
Lemma derive_properties_reference value :
  no_surrogate_pair value = true →
  ∃ m,
    derive_properties value =
    Props.Build (Some (length value))
                (Some (bool_decide (value = rev value)))
                (Some (distinct_characters value))
                (Some (token_count value))
                (Some (sha256_hex value))
                (Some m) ∧
    frequencies_of value m.
Proof.
  intros H. exists (frequency_map value). split.
  - unfold derive_properties.
    by rewrite (unique_characters_reference _ H), word_count_reference.
  - apply frequency_map_reference.
Qed.

(** Scenario 1 and the empty string. *)
Example racecar_properties :
  let value := toLowerASCII (str "Racecar") in
  value = str "racecar" ∧
  derive_length value = 7%nat ∧ derive_is_palindrome value = true ∧
  derive_word_count value = 1%nat ∧ derive_unique_characters value = 4%nat.
Proof. vm_compute. repeat split. Qed.

Example empty_string_properties :
  derive_length [] = 0%nat ∧ derive_is_palindrome [] = true ∧
  derive_word_count [] = 0%nat ∧ derive_unique_characters [] = 0%nat ∧
  frequency_map [] = ∅.
Proof. repeat split. Qed.

(** *** Lookup after insertion *)

Lemma find_app_fresh {A} (f : A → bool) (l : list A) (x : A) :
  List.find f l = None → f x = true → List.find f (l ++ [x]) = Some x.
Proof.
  intros Hl Hx. induction l as [|y l IH]; simpl in *.
  - by rewrite Hx.
  - destruct (f y); [done | by apply IH].
Qed.

(** Looking up a string right after its accepted insertion, in any casing
    with the same lower-cased form, returns the record that was created. *)
Lemma getString_after_addString
    (toLowerCase : jsstring → jsstring) (now s s' : jsstring)
    (strings : list Str.t) (w : write_result) :
  toLowerCase s' = toLowerCase s →
  List.find (has_value (toLowerCase s)) strings = None →
  getString toLowerCase
    (outcome (addString toLowerCase now strings (BString s)) w).2 s'
  = Response 200 (PRecord (new_record (toLowerCase s) now)).
Proof.
  intros Hcase Hfresh. unfold outcome, getString. simpl.
  rewrite Hfresh. simpl. rewrite Hcase.
  rewrite (find_app_fresh _ _ _ Hfresh); [done|].
  unfold has_value. by apply bool_decide_eq_true.
Qed.

(** ** Further properties of the controllers *)

(** *** The collection: lookup, insertion, deletion *)

Lemma find_none_absent value strings :
  List.find (has_value value) strings = None ↔ absent value strings.
Proof.
  unfold absent, has_value. induction strings as [|r l IH]; simpl.
  - split; [|done]. intros _ r Hr. by apply elem_of_nil in Hr.
  - destruct (bool_decide (Str.value r = Some value)) eqn:E.
    + apply bool_decide_eq_true in E. split; [done|].
      intros H. exfalso. apply (H r); [by left | done].
    + apply bool_decide_eq_false in E. rewrite IH. split.
      * intros H r' Hr'. apply elem_of_cons in Hr' as [-> | Hr']; auto.
      * intros H r' Hr'. apply H. by right.
Qed.

Lemma list_find_none_absent value strings :
  list_find (λ s, has_value value s = true) strings = None ↔
  absent value strings.
Proof.
  rewrite list_find_None, Forall_forall. unfold absent, has_value.
  split; intros H r Hr.
  - intros Hv. apply (H r Hr). by apply bool_decide_eq_true.
  - intros Hv. apply bool_decide_eq_true in Hv. by apply (H r Hr).
Qed.

Lemma find_first value strings i r :
  strings !! i = Some r → Str.value r = Some value →
  (∀ j r', (j < i)%nat → strings !! j = Some r' → Str.value r' ≠ Some value) →
  List.find (has_value value) strings = Some r.
Proof.
  revert i. induction strings as [|x l IH]; intros i Hi Hv Hfirst; [done|].
  simpl. destruct i as [|i]; simpl in Hi.
  - injection Hi as ->. unfold has_value.
    by rewrite bool_decide_eq_true_2.
  - assert (has_value value x = false) as ->.
    { apply bool_decide_eq_false. apply (Hfirst 0%nat); [lia | done]. }
    apply (IH i); [done..|].
    intros j r' Hj Hr'. apply (Hfirst (S j)); [lia | done].
Qed.

(** X1. After an accepted insertion of [s], looking up any string with the
    same lower-cased form answers 200 with the record just created, and
    looking up a string with another lower-cased form answers what it
    answered before the insertion. *)
Theorem lookup_after_insert
    (toLowerCase : jsstring → jsstring) (now s : jsstring)
    (strings : list Str.t) (w : write_result) :
  absent (toLowerCase s) strings →
  let strings' :=
    (outcome (addString toLowerCase now strings (BString s)) w).2 in
  (∀ s', toLowerCase s' = toLowerCase s →
     getString toLowerCase strings' s'
     = Response 200 (PRecord (new_record (toLowerCase s) now))) ∧
  (∀ p, toLowerCase p ≠ toLowerCase s →
     getString toLowerCase strings' p = getString toLowerCase strings p).
Proof.
  intros Habs strings'. apply find_none_absent in Habs as Hfresh.
  split.
  - intros s' Hcase. unfold strings'.
    by apply getString_after_addString.
  - intros p Hp. unfold strings', outcome, getString. simpl.
    rewrite Hfresh. simpl.
    assert (List.find (has_value (toLowerCase p))
              (strings ++ [new_record (toLowerCase s) now])
            = List.find (has_value (toLowerCase p)) strings) as ->; [|done].
    induction strings as [|x l IH]; simpl.
    + unfold has_value. rewrite bool_decide_eq_false_2; [done|].
      simpl. intros [= H]. by apply Hp.
    + destruct (has_value (toLowerCase p) x); [done|]. apply IH.
      * intros r Hr. apply Habs. by right.
      * simpl in Hfresh. destruct (has_value (toLowerCase s) x); [done|].
        exact Hfresh.
Qed.

Lemma lookup_after_insert_witness :
  let strings := [new_record (str "apple") (str "t0")] in
  let strings' :=
    (outcome (addString toLowerASCII (str "t1") strings
                (BString (str "Zebra"))) WriteOk).2 in
  (∀ s', toLowerASCII s' = toLowerASCII (str "Zebra") →
     getString toLowerASCII strings' s'
     = Response 200
         (PRecord (new_record (toLowerASCII (str "Zebra")) (str "t1")))) ∧
  (∀ p, toLowerASCII p ≠ toLowerASCII (str "Zebra") →
     getString toLowerASCII strings' p = getString toLowerASCII strings p).
Proof.
  intros strings.
  apply (lookup_after_insert toLowerASCII (str "t1") (str "Zebra") strings
           WriteOk).
  intros r Hr. apply list_elem_of_singleton in Hr as ->. discriminate.
Defined.

(** X2. A lookup answers 404 "String not found." exactly when no record
    has the lower-cased string as its value; otherwise it answers 200 with
    the id, properties and creation time of the first record that has it. *)
Theorem lookup_found_or_404
    (toLowerCase : jsstring → jsstring) (strings : list Str.t)
    (p : jsstring) :
  (getString toLowerCase strings p
   = Response 404 (PError (str "String not found."))
   ↔ absent (toLowerCase p) strings) ∧
  (∀ i r,
     strings !! i = Some r → Str.value r = Some (toLowerCase p) →
     (∀ j r', (j < i)%nat → strings !! j = Some r' →
              Str.value r' ≠ Some (toLowerCase p)) →
     getString toLowerCase strings p
     = Response 200
         (PRecord (Str.Build (Str.id r) (Some (toLowerCase p))
                     (Str.properties r) (Str.created_at r)))).
Proof.
  split.
  - rewrite <- find_none_absent. unfold getString.
    destruct (List.find _ strings); split; done.
  - intros i r Hi Hv Hfirst. unfold getString.
    by rewrite (find_first _ _ _ _ Hi Hv Hfirst).
Qed.

Lemma absent_not_in_values value strings :
  absent value strings ↔ Some value ∉ stored_values strings.
Proof.
  unfold absent, stored_values. rewrite list_elem_of_fmap. split.
  - intros H (r & Hv & Hr). by apply (H r Hr).
  - intros H r Hr Hv. apply H. by exists r.
Qed.

(** X3. A deletion whose parameter is missing or empty, or decodes to a
    string that no record has as its value once lower-cased, answers 404,
    leaves the collection as it is and starts no write. *)
Theorem delete_without_match_is_404
    (toLowerCase : jsstring → jsstring)
    (decodeURIComponent : jsstring → option jsstring)
    (strings : list Str.t) (param : option jsstring) (w : write_result) :
  match param with
  | Some (c :: s) =>
      ∃ d, decodeURIComponent (c :: s) = Some d ∧
           absent (toLowerCase d) strings
  | _ => True
  end →
  let a := deleteString toLowerCase decodeURIComponent strings param in
  outcome a w = (Response 404 PNone, strings) ∧
  trace a w = [Responded] ∧
  writes_issued (trace a w) = [].
Proof.
  intros H a. unfold a, outcome, trace, deleteString.
  destruct param as [[|c s]|]; try done.
  destruct H as (d & -> & Habs).
  apply list_find_none_absent in Habs. by rewrite Habs.
Qed.

Lemma delete_without_match_is_404_witness :
  let a := deleteString toLowerASCII decode_plain
             [new_record (str "apple") (str "t0")] (Some (str "Zebra")) in
  outcome a WriteOk
  = (Response 404 PNone, [new_record (str "apple") (str "t0")]) ∧
  trace a WriteOk = [Responded] ∧
  writes_issued (trace a WriteOk) = [].
Proof.
  apply (delete_without_match_is_404 toLowerASCII decode_plain
           [new_record (str "apple") (str "t0")] (Some (str "Zebra")) WriteOk).
  exists (str "Zebra"). split; [reflexivity|].
  intros r Hr. apply list_elem_of_singleton in Hr as ->. discriminate.
Defined.

(** X4. Inserting a string that is not stored and then deleting it, under
    any name that decodes to a string with the same lower-cased form, gives
    back the collection as it was before the insertion. *)
Theorem insert_then_delete_restores
    (toLowerCase : jsstring → jsstring)
    (decodeURIComponent : jsstring → option jsstring)
    (now s d : jsstring) (c : codeunit) (p : jsstring)
    (strings : list Str.t) (w w' : write_result) :
  absent (toLowerCase s) strings →
  decodeURIComponent (c :: p) = Some d →
  toLowerCase d = toLowerCase s →
  let strings' :=
    (outcome (addString toLowerCase now strings (BString s)) w).2 in
  outcome (deleteString toLowerCase decodeURIComponent strings'
             (Some (c :: p))) w'
  = (match w' with
     | WriteOk => Response 204 PNone
     | WriteError => server_error
     end, strings).
Proof.
  intros Habs Hdec Hcase strings'.
  assert (strings' = strings ++ [new_record (toLowerCase s) now]) as ->.
  { unfold strings', outcome. simpl.
    apply find_none_absent in Habs. by rewrite Habs. }
  unfold outcome, deleteString. rewrite Hdec, Hcase.
  apply list_find_none_absent in Habs.
  rewrite (list_find_app_r _ _ _ Habs). simpl.
  rewrite decide_True by (unfold has_value; by apply bool_decide_eq_true).
  simpl.
  replace (delete (length strings)
             (strings ++ [new_record (toLowerCase s) now]))
    with strings.
  - by destruct w'.
  - by rewrite delete_middle, app_nil_r.
Qed.

Lemma insert_then_delete_restores_witness :
  let strings := [new_record (str "apple") (str "t0")] in
  let strings' :=
    (outcome (addString toLowerASCII (str "t1") strings
                (BString (str "Zebra"))) WriteOk).2 in
  outcome (deleteString toLowerASCII decode_plain strings'
             (Some (str "ZEBRA"))) WriteOk
  = (Response 204 PNone, strings).
Proof.
  intros strings.
  apply (insert_then_delete_restores toLowerASCII decode_plain (str "t1")
           (str "Zebra") (str "ZEBRA") 90 (str "EBRA") strings
           WriteOk WriteOk).
  - intros r Hr. apply list_elem_of_singleton in Hr as ->. discriminate.
  - reflexivity.
  - reflexivity.
Defined.

(** X5. In a collection whose values are pairwise distinct, deleting a
    stored value removes it altogether: afterwards no record has that
    value, the collection is one record shorter, and every record with
    another value is still there, in the same order. *)
Theorem delete_removes_the_value
    (toLowerCase : jsstring → jsstring)
    (decodeURIComponent : jsstring → option jsstring)
    (strings : list Str.t) (c : codeunit) (p d : jsstring)
    (r0 : Str.t) (w : write_result) :
  NoDup (stored_values strings) →
  decodeURIComponent (c :: p) = Some d →
  r0 ∈ strings → Str.value r0 = Some (toLowerCase d) →
  let strings' :=
    (outcome (deleteString toLowerCase decodeURIComponent strings
                (Some (c :: p))) w).2 in
  absent (toLowerCase d) strings' ∧
  length strings = S (length strings') ∧
  strings' `sublist_of` strings ∧
  (∀ r, r ∈ strings → Str.value r ≠ Some (toLowerCase d) → r ∈ strings').
Proof.
  intros Hnd Hdec Hin Hval strings'.
  destruct (list_find (λ s, has_value (toLowerCase d) s = true) strings)
    as [[i r]|] eqn:Hfind.
  2: { apply list_find_none_absent in Hfind. by destruct (Hfind r0 Hin). }
  assert (strings' = delete i strings) as ->.
  { unfold strings', outcome, deleteString. rewrite Hdec, Hfind.
    simpl. by destruct w. }
  apply list_find_Some in Hfind as (Hi & Hr & _).
  unfold has_value in Hr. apply bool_decide_eq_true in Hr.
  pose proof (take_drop_middle strings i r Hi) as Hsplit.
  rewrite delete_take_drop.
  split_and!.
  - apply absent_not_in_values. unfold stored_values in *.
    rewrite <- Hsplit in Hnd. rewrite fmap_app, fmap_cons, Hr in Hnd.
    apply NoDup_app in Hnd as (_ & Hleft & Hright).
    apply NoDup_cons in Hright as [Hright _].
    rewrite fmap_app, elem_of_app. intros [H | H]; [|done].
    apply (Hleft _ H). by left.
  - rewrite <- Hsplit at 1. rewrite !length_app. simpl. lia.
  - rewrite <- delete_take_drop. apply sublist_delete.
  - intros r' Hr' Hne. rewrite <- Hsplit in Hr'.
    rewrite elem_of_app, elem_of_cons in Hr'. rewrite elem_of_app.
    destruct Hr' as [H | [-> | H]]; auto. by destruct Hne.
Qed.

Lemma delete_removes_the_value_witness :
  let strings :=
    [new_record (str "apple") (str "t0"); new_record (str "zebra") (str "t1")]
  in
  let strings' :=
    (outcome (deleteString toLowerASCII decode_plain strings
                (Some (str "Apple"))) WriteOk).2 in
  absent (toLowerASCII (str "Apple")) strings' ∧
  length strings = S (length strings') ∧
  strings' `sublist_of` strings ∧
  (∀ r, r ∈ strings → Str.value r ≠ Some (toLowerASCII (str "Apple")) →
        r ∈ strings').
Proof.
  intros strings.
  apply (delete_removes_the_value toLowerASCII decode_plain strings
           65 (str "pple") (str "Apple")
           (new_record (str "apple") (str "t0")) WriteOk).
  - apply (bool_decide_unpack (NoDup (stored_values strings))).
    vm_compute. exact I.
  - reflexivity.
  - by left.
  - reflexivity.
Defined.

Lemma addString_keeps_unique (toLowerCase : jsstring → jsstring)
    now strings value w :
  NoDup (stored_values strings) →
  NoDup (stored_values
           (outcome (addString toLowerCase now strings value) w).2).
Proof.
  intros Hnd. unfold outcome.
  destruct value as [| |s|]; simpl; try done.
  destruct (List.find _ strings) eqn:Hfind; simpl; [done|].
  apply find_none_absent, absent_not_in_values in Hfind.
  unfold stored_values in *. rewrite fmap_app. simpl.
  apply NoDup_app. split_and!; [done| |apply NoDup_singleton].
  intros v Hv Hv'. apply list_elem_of_singleton in Hv' as ->. done.
Qed.

Lemma deleteString_keeps_unique (toLowerCase : jsstring → jsstring)
    (decodeURIComponent : jsstring → option jsstring) strings param w :
  NoDup (stored_values strings) →
  NoDup (stored_values
           (outcome (deleteString toLowerCase decodeURIComponent strings
                       param) w).2).
Proof.
  intros Hnd. unfold outcome, deleteString.
  destruct param as [[|c s]|]; simpl; try done.
  destruct (decodeURIComponent (c :: s)); simpl; [|done].
  destruct (list_find _ strings) as [[i r]|]; simpl; [|done].
  assert (NoDup (stored_values (delete i strings))).
  { unfold stored_values. rewrite list_fmap_delete.
    eapply sublist_NoDup; [exact Hnd | apply sublist_delete]. }
  by destruct w.
Qed.

(** X6. Starting from a collection of records made by [addString] with
    pairwise distinct values, any sequence of insertions and deletions, each
    with any outcome of its write, leads to such a collection again; given
    that lower-casing is idempotent, no two of its records have values with
    the same lower-cased form. *)
Theorem mutations_keep_values_unique
    (toLowerCase : jsstring → jsstring)
    (decodeURIComponent : jsstring → option jsstring)
    (strings : list Str.t) (ms : list mutation) :
  (∀ t, toLowerCase (toLowerCase t) = toLowerCase t) →
  inserted_store toLowerCase strings →
  NoDup (stored_values strings) →
  let strings' := serve_all toLowerCase decodeURIComponent strings ms in
  inserted_store toLowerCase strings' ∧
  NoDup (stored_values strings') ∧
  (∀ i j ri rj vi vj,
     strings' !! i = Some ri → strings' !! j = Some rj → i ≠ j →
     Str.value ri = Some vi → Str.value rj = Some vj →
     toLowerCase vi ≠ toLowerCase vj).
Proof.
  intros Hidem Hins Hnd strings'.
  assert (inserted_store toLowerCase strings' ∧
          NoDup (stored_values strings')) as [Hins' Hnd'].
  { unfold strings', serve_all. clear strings'.
    revert strings Hins Hnd. induction ms as [|m ms IH]; intros; [done|].
    simpl. apply IH.
    - destruct m; simpl;
        [by apply addString_inserted | by apply deleteString_inserted].
    - destruct m; simpl;
        [by apply addString_keeps_unique
        | by apply deleteString_keeps_unique]. }
  split_and!; [done..|].
  intros i j ri rj vi vj Hi Hj Hne Hvi Hvj Heq.
  unfold inserted_store in Hins'. rewrite Forall_forall in Hins'.
  destruct (inserted_value _ _ (Hins' ri (list_elem_of_lookup_2 _ _ _ Hi)))
    as [xi Hxi].
  destruct (inserted_value _ _ (Hins' rj (list_elem_of_lookup_2 _ _ _ Hj)))
    as [xj Hxj].
  rewrite Hvi in Hxi. rewrite Hvj in Hxj.
  injection Hxi as ->. injection Hxj as ->.
  rewrite !Hidem in Heq.
  apply Hne.
  apply (NoDup_lookup (stored_values strings') i j
           (Some (toLowerCase xi)) Hnd').
  - unfold stored_values. by rewrite list_lookup_fmap, Hi, <- Hvi.
  - unfold stored_values. by rewrite list_lookup_fmap, Hj, Heq, <- Hvj.
Qed.

Lemma mutations_keep_values_unique_witness :
  let strings' :=
    serve_all toLowerASCII decode_plain []
      [ Insert (str "t0") (BString (str "Zebra")) WriteOk;
        Insert (str "t1") (BString (str "ZEBRA")) WriteOk;
        Insert (str "t2") (BString (str "apple")) WriteError;
        Remove (Some (str "zebra")) WriteError;
        Insert (str "t3") BNull WriteOk ] in
  inserted_store toLowerASCII strings' ∧
  NoDup (stored_values strings') ∧
  (∀ i j ri rj vi vj,
     strings' !! i = Some ri → strings' !! j = Some rj → i ≠ j →
     Str.value ri = Some vi → Str.value rj = Some vj →
     toLowerASCII vi ≠ toLowerASCII vj).
Proof.
  apply (mutations_keep_values_unique toLowerASCII decode_plain []).
  - apply toLowerASCII_idem.
  - constructor.
  - constructor.
Defined.

(** X7. An insertion answers 201 exactly when the value is a string whose
    lower-cased form no record has yet; then the collection grows by the new
    record at its end and one write of the new collection is started.  In
    every other case the collection is left as it is and no write is
    started. *)
Theorem insert_changes_only_on_success
    (toLowerCase : jsstring → jsstring) (now : jsstring)
    (strings : list Str.t) (value : body_value) (w : write_result) :
  let a := addString toLowerCase now strings value in
  (status (outcome a w).1 = 201%nat ↔
   ∃ s, value = BString s ∧ absent (toLowerCase s) strings) ∧
  (∀ s, value = BString s → absent (toLowerCase s) strings →
     outcome a w =
       (Response 201 (PRecord (new_record (toLowerCase s) now)),
        strings ++ [new_record (toLowerCase s) now]) ∧
     writes_issued (trace a w) =
       [strings ++ [new_record (toLowerCase s) now]]) ∧
  (status (outcome a w).1 ≠ 201%nat →
     (outcome a w).2 = strings ∧ writes_issued (trace a w) = []).
Proof.
  intros a. unfold a, outcome, trace.
  destruct value as [| |s|]; simpl.
  1,2,4: split_and!; [split; [done | by intros (? & ? & _)] | done | done].
  destruct (List.find (has_value (toLowerCase s)) strings) eqn:Hfind; simpl.
  - split_and!; [split; [done|] | | done].
    + intros (s' & [= <-] & Habs). apply find_none_absent in Habs. congruence.
    + intros s' [= <-] Habs. apply find_none_absent in Habs. congruence.
  - split_and!; [split; [|done] | | done].
    + intros _. exists s. split; [done | by apply find_none_absent].
    + by intros s' [= <-] _.
Qed.



(** *** The structured listing *)

Lemma filter_all {A} (l : list A) : List.filter (λ _, true) l = l.
Proof. induction l as [|x l IH]; simpl; by rewrite ?IH. Qed.

Lemma step_holds {A} (x : option A) keep l :
  step x keep l = List.filter (holds x keep) l.
Proof. destruct x; simpl; [done | by rewrite filter_all]. Qed.

Lemma apply_filters_satisfies ip mn mx wc cc strings :
  apply_filters ip mn mx wc cc strings =
  List.filter (satisfies ip mn mx wc cc) strings.
Proof.
  unfold apply_filters. rewrite !step_holds, !filter_filter.
  apply List.filter_ext. intros r. unfold satisfies.
  by rewrite <- !andb_assoc.
Qed.

Lemma by_is_palindrome_true b r :
  by_is_palindrome b r = true ↔ default false (prop_is_palindrome r) = b.
Proof.
  unfold by_is_palindrome.
  destruct (default false (prop_is_palindrome r)), b; simpl; split; done.
Qed.

(** X9. When the parameters pass validation, the listing holds exactly the
    records of the collection, in its order, that meet every provided
    filter: the palindrome flag as given, length at least [min_length] and
    at most [max_length], word count equal to [word_count], and a value
    containing one of the substrings.  The count is their number. *)
Theorem listing_meets_every_filter
    (toLowerCase : jsstring → jsstring) (strings : list Str.t)
    (raw : Raw.t) (ip : option bool) (mn mx wc : option Q) :
  validate toLowerCase raw = Ok (ip, mn, mx, wc) →
  let cc := parse_contains_character (Raw.contains_character raw) in
  let d := List.filter (satisfies ip mn mx wc cc) strings in
  getAllStringsWithFiltering toLowerCase strings raw
  = Response 200
      (PListing d (length d)
         {| af_is_palindrome := ip; af_min_length := mn;
            af_max_length := mx; af_word_count := wc;
            af_contains_character := applied_contains <$> cc |}) ∧
  (∀ r, r ∈ d ↔
     r ∈ strings ∧
     (∀ b, ip = Some b → default false (prop_is_palindrome r) = b) ∧
     (∀ lo, mn = Some lo → (lo <= of_nat (prop_length r))%Q) ∧
     (∀ hi, mx = Some hi → (of_nat (prop_length r) <= hi)%Q) ∧
     (∀ n, wc = Some n → (of_nat (prop_word_count r) == n)%Q) ∧
     (∀ subs, cc = Some subs →
        ∃ value sub a b,
          Str.value r = Some value ∧ sub ∈ subs ∧ value = a ++ sub ++ b)).
Proof.
  intros Hv cc d. split.
  - rewrite getAll_validate, Hv. simpl.
    fold cc. by rewrite apply_filters_satisfies.
  - intros r. unfold d. rewrite list_elem_of_In, List.filter_In.
    rewrite <- list_elem_of_In. unfold satisfies.
    rewrite !andb_true_iff. split.
    + intros (Hr & (((Hip & Hmn) & Hmx) & Hwc) & Hcc). split_and!; [done|..].
      * intros b ->. by apply by_is_palindrome_true.
      * intros lo ->. by apply Qle_bool_iff.
      * intros hi ->. by apply Qle_bool_iff.
      * intros n ->. by apply Qeq_bool_iff.
      * intros subs Hsubs. rewrite Hsubs in Hcc. by apply by_contains_true.
    + intros (Hr & Hip & Hmn & Hmx & Hwc & Hcc). split_and!; [done|..].
      * destruct ip as [b|]; [|done]. by apply by_is_palindrome_true, Hip.
      * destruct mn as [lo|]; [|done]. by apply Qle_bool_iff, Hmn.
      * destruct mx as [hi|]; [|done]. by apply Qle_bool_iff, Hmx.
      * destruct wc as [n|]; [|done]. by apply Qeq_bool_iff, Hwc.
      * destruct cc as [subs|]; [|done]. by apply by_contains_true, Hcc.
Qed.

Lemma listing_meets_every_filter_witness :
  data_of (getAllStringsWithFiltering toLowerASCII
             [new_record (str "racecar") (str "t0");
              new_record (str "apple") (str "t1");
              new_record (str "aa") (str "t2")]
             (Raw.Build (text "TRUE") (text "3") None None None))
  = Some [new_record (str "racecar") (str "t0")].
Proof.
  destruct (listing_meets_every_filter toLowerASCII
              [new_record (str "racecar") (str "t0");
               new_record (str "apple") (str "t1");
               new_record (str "aa") (str "t2")]
              (Raw.Build (text "TRUE") (text "3") None None None)
              (Some true) (Some 3%Q) None None eq_refl) as [H _].
  rewrite H. reflexivity.
Defined.

(** X10. The listing of a collection made of two parts is the listing of
    the first part followed by the listing of the second, for the same
    parameters; in particular a record appended by an insertion shows up at
    the end of a listing or not at all, and the rest of the listing is as
    before. *)
Theorem listing_of_concatenation
    (toLowerCase : jsstring → jsstring) (strings more : list Str.t)
    (raw : Raw.t) :
  data_of (getAllStringsWithFiltering toLowerCase (strings ++ more) raw) =
  match data_of (getAllStringsWithFiltering toLowerCase strings raw),
        data_of (getAllStringsWithFiltering toLowerCase more raw) with
  | Some d, Some d' => Some (d ++ d')
  | _, _ => None
  end.
Proof.
  rewrite !getAll_validate.
  destruct (validate toLowerCase raw) as [[[[ip mn] mx] wc]|r] eqn:E.
  - simpl. by rewrite !apply_filters_satisfies, List.filter_app.
  - by destruct (validate_return _ _ _ E) as [msg ->].
Qed.

(** X11. An [is_palindrome] parameter that is not text, or is text other
    than "true" or "false" in some casing, is answered with status 400
    "is_palindrome must be 'true' or 'false'", whatever the other
    parameters and the collection are. *)
Theorem invalid_is_palindrome_rejected
    (toLowerCase : jsstring → jsstring) (strings : list Str.t)
    (raw : Raw.t) (v : qvalue) :
  Raw.is_palindrome raw = Some v →
  match v with
  | QOne (EString s) =>
      toLowerCase s ≠ str "true" ∧ toLowerCase s ≠ str "false"
  | _ => True
  end →
  getAllStringsWithFiltering toLowerCase strings raw
  = Response 400 (PError (str "is_palindrome must be 'true' or 'false'")).
Proof.
  intros Hraw Hv. unfold getAllStringsWithFiltering. rewrite Hraw.
  destruct v as [[s|]|l]; simpl; try done.
  destruct Hv as [Ht Hf].
  apply streq_false in Ht, Hf. by rewrite Ht, Hf.
Qed.

Lemma invalid_is_palindrome_rejected_witness :
  getAllStringsWithFiltering toLowerASCII
    [new_record (str "racecar") (str "t0")]
    (Raw.Build (text "yes") (text "abc") None None None)
  = Response 400 (PError (str "is_palindrome must be 'true' or 'false'")).
Proof.
  apply (invalid_is_palindrome_rejected toLowerASCII _ _
           (QOne (EString (str "yes")))).
  - reflexivity.
  - split; discriminate.
Defined.

(** X12. When the parameters pass validation and [word_count] is a number
    that is not a non-negative integer, the listing is empty. *)
Theorem fractional_word_count_lists_nothing
    (toLowerCase : jsstring → jsstring) (strings : list Str.t)
    (raw : Raw.t) (ip : option bool) (mn mx : option Q) (x : Q) :
  validate toLowerCase raw = Ok (ip, mn, mx, Some x) →
  (∀ n : nat, ¬ (of_nat n == x)%Q) →
  data_of (getAllStringsWithFiltering toLowerCase strings raw) = Some [].
Proof.
  intros Hv Hx. rewrite getAll_validate, Hv. simpl. f_equal.
  rewrite apply_filters_satisfies. apply filter_none. intros r _.
  unfold satisfies. simpl.
  destruct (by_word_count x r) eqn:E.
  - apply Qeq_bool_iff in E. by destruct (Hx _ E).
  - by rewrite andb_false_r.
Qed.

Lemma fractional_word_count_lists_nothing_witness :
  data_of (getAllStringsWithFiltering toLowerASCII
             [new_record (str "two words") (str "t0")]
             (Raw.Build None None None (text "1.5") None)) = Some [].
Proof.
  apply (fractional_word_count_lists_nothing toLowerASCII _ _
           None None None (3 # 2)).
  - reflexivity.
  - intros n. unfold Qeq, of_nat. simpl. lia.
Defined.

(** *** The natural-language listing *)

(** X13. Two query strings with the same trimmed, lower-cased form get the
    same records, count, parsed filters and message; the answers differ
    only in the echo of the query string. *)
Theorem natural_language_ignores_case_and_padding
    (toLowerCase : jsstring → jsstring) (strings : list Str.t)
    (s1 s2 : jsstring) :
  toLowerCase (trim s1) = toLowerCase (trim s2) →
  ∃ d pf m,
    filterByNaturalLanguage toLowerCase strings (a_query s1)
    = Response 200 (PInterpreted d (length d) s1 pf m) ∧
    filterByNaturalLanguage toLowerCase strings (a_query s2)
    = Response 200 (PInterpreted d (length d) s2 pf m).
Proof.
  intros H. rewrite !natural_language_a_query, H.
  destruct (interpret toLowerCase (toLowerCase (trim s2))) as [[keep pf]|].
  - by exists (List.filter keep strings), pf, None.
  - by eexists [], [], _.
Qed.

Lemma natural_language_ignores_case_and_padding_witness :
  ∃ d pf m,
    filterByNaturalLanguage toLowerASCII
      [new_record (str "zebra") (str "t0")]
      (a_query (str "  STRINGS containing the letter Z"))
    = Response 200
        (PInterpreted d (length d)
           (str "  STRINGS containing the letter Z") pf m) ∧
    filterByNaturalLanguage toLowerASCII
      [new_record (str "zebra") (str "t0")]
      (a_query (str "strings containing the letter z "))
    = Response 200
        (PInterpreted d (length d)
           (str "strings containing the letter z ") pf m).
Proof.
  apply (natural_language_ignores_case_and_padding toLowerASCII).
  reflexivity.
Defined.

(** X14. Both listing handlers answer with status 200 or 400 only; in a 200
    answer the count is the number of records sent and these records are a
    sub-sequence of the collection. *)
Theorem listings_count_their_records
    (toLowerCase : jsstring → jsstring) (strings : list Str.t)
    (raw : Raw.t) (req : NLReq.t) :
  let listing := getAllStringsWithFiltering toLowerCase strings raw in
  let interpreted := filterByNaturalLanguage toLowerCase strings req in
  (status listing = 200%nat ∨ status listing = 400%nat) ∧
  (status interpreted = 200%nat ∨ status interpreted = 400%nat) ∧
  (∀ d n fa, listing = Response 200 (PListing d n fa) →
     n = length d ∧ d `sublist_of` strings) ∧
  (∀ d n o pf m, interpreted = Response 200 (PInterpreted d n o pf m) →
     n = length d ∧ d `sublist_of` strings).
Proof.
  intros listing interpreted.
  assert ((status listing = 200%nat ∨ status listing = 400%nat) ∧
          ∀ d n fa, listing = Response 200 (PListing d n fa) →
            n = length d ∧ d `sublist_of` strings) as [H1 H2].
  { unfold listing. rewrite getAll_validate.
    destruct (validate toLowerCase raw) as [[[[ip mn] mx] wc]|r] eqn:E.
    - split; [by left|]. intros d n fa [= <- <- _].
      split; [done | apply apply_filters_sublist].
    - destruct (validate_return _ _ _ E) as [msg ->]. split; [by right|].
      done. }
  assert ((status interpreted = 200%nat ∨ status interpreted = 400%nat) ∧
          ∀ d n o pf m, interpreted = Response 200 (PInterpreted d n o pf m)
            → n = length d ∧ d `sublist_of` strings) as [H3 H4].
  { unfold interpreted, filterByNaturalLanguage.
    destruct (nullish_or _ _) as [[e|l]|]; simpl.
    - destruct e as [s|]; [|split; [by right | done]].
      destruct (interpret _ _) as [[keep pf]|].
      + split; [by left|]. intros d n o pf' m [= <- <- _ _ _].
        split; [done | apply filter_sublist].
      + split; [by left|]. intros d n o pf' m [= <- <- _ _ _].
        split; [done | apply sublist_nil_l].
    - destruct (head l) as [[s|]|]; try (split; [by right | done]).
      destruct (interpret _ _) as [[keep pf]|].
      + split; [by left|]. intros d n o pf' m [= <- <- _ _ _].
        split; [done | apply filter_sublist].
      + split; [by left|]. intros d n o pf' m [= <- <- _ _ _].
        split; [done | apply sublist_nil_l].
    - split; [by right | done]. }
  done.
Qed.

(** *** The derived properties *)

Lemma token_starts_zero before s :
  token_starts before s = 0%nat →
  (before = true → all_space s) ∧
  (before = false → ∀ c s', s = c :: s' → isWhiteSpace c = true → all_space s).
Proof.
  revert before. induction s as [|c s IH]; intros before H.
  - split; [intros _; constructor | intros _ ? ? [=]].
  - simpl in H. destruct (isWhiteSpace c) eqn:E.
    + destruct (IH true H) as [Hs _]. split.
      * intros _. constructor; [done | by apply Hs].
      * intros _ c' s' [= <- <-] _. constructor; [done | by apply Hs].
    + split.
      * intros ->. simpl in H. lia.
      * intros _ c' s' [= <- <-] Hc. congruence.
Qed.

(** X15. The stored word count is the number of maximal runs of code units
    that are not white space; it is 0 exactly for the values made of white
    space only, the empty value among them. *)
Theorem word_count_counts_tokens (value : jsstring) :
  derive_word_count value = token_count value ∧
  (derive_word_count value = 0%nat ↔ all_space value).
Proof.
  split; [apply word_count_reference|].
  rewrite word_count_reference. unfold token_count. split.
  - intros H. by apply (token_starts_zero true value H).
  - apply token_starts_all_space.
Qed.

Lemma occurrences_zero c value : occurrences c value = 0%nat ↔ c ∉ value.
Proof.
  unfold occurrences. induction value as [|x l IH]; simpl.
  - split; [intros _ H; by apply elem_of_nil in H | done].
  - rewrite not_elem_of_cons. destruct (N.eqb_spec c x) as [-> | Hne]; simpl.
    + split; [done | by intros [H _]].
    + rewrite IH. split; [done | by intros [_ H]].
Qed.

Lemma total_count_insert_fresh (m : gmap N nat) c k :
  m !! c = None → total_count (<[c := k]> m) = (total_count m + k)%nat.
Proof.
  intros E. unfold total_count.
  rewrite (map_to_list_insert m c k E). simpl. unfold fmap. lia.
Qed.

Lemma total_count_insert_over (m : gmap N nat) c k v :
  m !! c = Some v →
  (total_count (<[c := k]> m) + v = total_count m + k)%nat.
Proof.
  intros E. unfold total_count.
  rewrite <- (insert_delete_eq m).
  rewrite (map_to_list_insert (delete c m) c k) by apply lookup_delete_eq.
  rewrite <- (map_to_list_delete m c v E). simpl. unfold fmap. lia.
Qed.

Lemma total_count_foldl value (acc : gmap N nat) :
  (∀ c, acc !! c ≠ Some 0%nat) →
  total_count (foldl count_char acc value)
  = (total_count acc + length value)%nat.
Proof.
  revert acc. induction value as [|c s IH]; intros acc Hpos; simpl; [lia|].
  rewrite IH.
  - unfold count_char, codeunit in *.
    destruct (acc !! c) as [[|n]|] eqn:E; cbn [or0].
    + by destruct (Hpos c E).
    + pose proof (total_count_insert_over acc c (S n + 1) (S n) E). lia.
    + pose proof (total_count_insert_fresh acc c (0 + 1) E). lia.
  - intros c'. unfold count_char.
    destruct (decide (c = c')) as [-> | Hne].
    + rewrite lookup_insert_eq. intros [= H]. lia.
    + rewrite lookup_insert_ne by done. apply Hpos.
Qed.

(** X16. The frequency map of a value maps each code unit that occurs to
    its number of occurrences and has no other entry; so its entries are as
    many as the distinct code units, and its counts add up to the length. *)
Theorem frequency_map_counts_occurrences (value : jsstring) :
  let m := frequency_map value in
  (∀ c, c ∈ value → m !! c = Some (occurrences c value)) ∧
  (∀ c, c ∉ value → m !! c = None) ∧
  size m = distinct_characters value ∧
  total_count m = derive_length value.
Proof.
  intros m. pose proof (frequency_map_reference value) as Href.
  fold m in Href. unfold frequencies_of, codeunit in *. split_and!.
  - intros c Hc. rewrite (Href c).
    destruct (occurrences c value) eqn:E; [|done].
    by apply occurrences_zero in E.
  - intros c Hc. rewrite (Href c).
    apply occurrences_zero in Hc. by rewrite Hc.
  - unfold distinct_characters. rewrite <- (size_dom (D := gset N)).
    f_equal. apply set_eq. intros c.
    rewrite elem_of_dom, elem_of_list_to_set, (Href c).
    destruct (occurrences c value) eqn:E; simpl.
    + apply occurrences_zero in E. split; [by intros [? ?] | done].
    + split; [|by eauto]. intros _.
      destruct (decide (c ∈ value)) as [|Hn]; [done|].
      apply occurrences_zero in Hn. congruence.
  - unfold m, frequency_map, derive_length.
    rewrite total_count_foldl; [done|]. intros c. by rewrite lookup_empty.
Qed.

Lemma remove_dups_length {A} `{EqDecision A} (l : list A) :
  (length (remove_dups l) ≤ length l)%nat.
Proof.
  induction l as [|x l IH]; simpl; [done|].
  destruct (decide_rel elem_of x l); simpl; lia.
Qed.

Lemma string_iterator_length s :
  (length (string_iterator s) ≤ length s)%nat ∧
  ∀ c, (length (string_iterator (c :: s)) ≤ S (length s))%nat.
Proof.
  induction s as [|d s [IH1 IH2]].
  - split; [done | intros c; simpl; lia].
  - split; [apply IH2|]. intros c.
    change (string_iterator (c :: d :: s))
      with (if isHighSurrogate c && isLowSurrogate d
            then [c; d] :: string_iterator s
            else [c] :: string_iterator (d :: s)).
    destruct (isHighSurrogate c && isLowSurrogate d); simpl length.
    + lia.
    + specialize (IH2 d). simpl length in IH2. lia.
Qed.

(** X17. [unique_characters] never exceeds the length; for a value without
    a surrogate pair it is the number of distinct code units, which is also
    the number of entries of the frequency map. *)
Theorem unique_characters_against_units (value : jsstring) :
  (derive_unique_characters value ≤ derive_length value)%nat ∧
  (no_surrogate_pair value = true →
   derive_unique_characters value = distinct_characters value ∧
   derive_unique_characters value = size (frequency_map value)).
Proof.
  split.
  - unfold derive_unique_characters, derive_length.
    etrans; [apply remove_dups_length|]. apply string_iterator_length.
  - intros H. rewrite (unique_characters_reference _ H). split; [done|].
    unfold distinct_characters. rewrite <- (size_dom (D := gset N)).
    f_equal. apply set_eq. intros c.
    pose proof (frequency_map_reference value c) as Hc.
    unfold codeunit in *.
    rewrite elem_of_dom, elem_of_list_to_set, Hc.
    destruct (occurrences c value) eqn:E; simpl.
    + apply occurrences_zero in E. split; [done | by intros [? ?]].
    + split; [by eauto|]. intros _.
      destruct (decide (c ∈ value)) as [|Hn]; [done|].
      apply occurrences_zero in Hn. congruence.
Qed.

Lemma unique_characters_against_units_witness :
  derive_unique_characters (str "racecar") = distinct_characters (str "racecar")
  ∧ derive_unique_characters (str "racecar")
    = size (frequency_map (str "racecar")).
Proof.
  apply (unique_characters_against_units (str "racecar")). reflexivity.
Defined.

Lemma surrogates_disjoint c :
  isLowSurrogate c = true → isHighSurrogate c = false.
Proof.
  unfold isLowSurrogate, isHighSurrogate. intros H.
  apply andb_true_iff in H as [H _]. apply N.leb_le in H.
  apply andb_false_iff. right. apply N.leb_gt. lia.
Qed.

(** X18. A value of one code unit is stored as a palindrome; a value that
    is one character outside the basic plane, a high surrogate followed by
    a low one, is stored as not a palindrome. *)
Theorem single_character_palindrome (c d : codeunit) :
  derive_is_palindrome [c] = true ∧
  (isHighSurrogate c = true → isLowSurrogate d = true →
   derive_is_palindrome [c; d] = false).
Proof.
  split; [by apply streq_true|].
  intros Hc Hd. apply streq_false. simpl. intros [= -> _].
  rewrite (surrogates_disjoint _ Hd) in Hc. discriminate.
Qed.

Lemma single_character_palindrome_witness :
  derive_is_palindrome grinning_face = false.
Proof.
  apply (single_character_palindrome 0xD83D 0xDE00); reflexivity.
Defined.

Lemma utf8_lone_low c s :
  isLowSurrogate c = true → utf8 (c :: s) = utf8_of_codepoint 0xFFFD ++ utf8 s.
Proof.
  intros H.
  change (utf8 (c :: s))
    with (if isHighSurrogate c then
            match s with
            | d :: s'' =>
                if isLowSurrogate d
                then utf8_of_codepoint
                       (0x10000 + (c - 0xD800) * 0x400 + (d - 0xDC00))
                     ++ utf8 s''
                else utf8_of_codepoint 0xFFFD ++ utf8 s
            | [] => utf8_of_codepoint 0xFFFD
            end
          else if isLowSurrogate c then utf8_of_codepoint 0xFFFD ++ utf8 s
          else utf8_of_codepoint c ++ utf8 s).
  by rewrite (surrogates_disjoint _ H), H.
Qed.

(** X19. The id does not tell apart values that begin with different lone
    low surrogates and continue alike: both are hashed through the same
    UTF-8 bytes.  Inserting one after the other is accepted twice and gives
    two records with different values and the same id. *)
Theorem lone_surrogates_share_an_id
    (toLowerCase : jsstring → jsstring) (now now' : jsstring)
    (strings : list Str.t) (c d : codeunit) (s : jsstring)
    (w w' : write_result) :
  isLowSurrogate c = true → isLowSurrogate d = true → c ≠ d →
  toLowerCase (c :: s) = c :: s → toLowerCase (d :: s) = d :: s →
  absent (c :: s) strings → absent (d :: s) strings →
  let first :=
    outcome (addString toLowerCase now strings (BString (c :: s))) w in
  let second :=
    outcome (addString toLowerCase now' first.2 (BString (d :: s))) w' in
  ∃ r1 r2,
    first.1 = Response 201 (PRecord r1) ∧
    second.1 = Response 201 (PRecord r2) ∧
    second.2 = strings ++ [r1; r2] ∧
    Str.value r1 ≠ Str.value r2 ∧
    Str.id r1 = Str.id r2.
Proof.
  intros Hc Hd Hne Hlc Hld Hac Had first second.
  exists (new_record (c :: s) now), (new_record (d :: s) now').
  assert (first = (Response 201 (PRecord (new_record (c :: s) now)),
                   strings ++ [new_record (c :: s) now])) as Hfirst.
  { unfold first, outcome. simpl. rewrite Hlc.
    apply find_none_absent in Hac. by rewrite Hac. }
  assert (absent (d :: s) (strings ++ [new_record (c :: s) now])) as Had'.
  { intros r Hr. apply elem_of_app in Hr as [Hr | Hr]; [by apply Had|].
    apply list_elem_of_singleton in Hr as ->. simpl. intros [= H]. by apply Hne. }
  assert (second = (Response 201 (PRecord (new_record (d :: s) now')),
                    (strings ++ [new_record (c :: s) now])
                      ++ [new_record (d :: s) now'])) as Hsecond.
  { unfold second. rewrite Hfirst. unfold outcome. simpl. rewrite Hld.
    apply find_none_absent in Had'. by rewrite Had'. }
  rewrite Hfirst, Hsecond. split_and!; try done.
  - by rewrite <- app_assoc.
  - simpl. intros [= H]. by apply Hne.
  - simpl. f_equal. unfold sha256_hex.
    by rewrite (utf8_lone_low _ _ Hc), (utf8_lone_low _ _ Hd).
Qed.

Lemma lone_surrogates_share_an_id_witness :
  let first :=
    outcome (addString toLowerASCII (str "t0") [] (BString [0xDC00; 97]))
            WriteOk in
  let second :=
    outcome (addString toLowerASCII (str "t1") first.2
               (BString [0xDFFF; 97])) WriteOk in
  ∃ r1 r2,
    first.1 = Response 201 (PRecord r1) ∧
    second.1 = Response 201 (PRecord r2) ∧
    second.2 = [] ++ [r1; r2] ∧
    Str.value r1 ≠ Str.value r2 ∧
    Str.id r1 = Str.id r2.
Proof.
  apply (lone_surrogates_share_an_id toLowerASCII (str "t0") (str "t1") []
           0xDC00 0xDFFF [97] WriteOk WriteOk);
    try reflexivity; try discriminate.
  - intros r Hr. by apply elem_of_nil in Hr.
  - intros r Hr. by apply elem_of_nil in Hr.
Defined.

(** *** Numeric parameters in plain decimal *)

Lemma isDigit_bounds c : isDigit c = true ↔ 48 ≤ c ∧ c ≤ 57.
Proof.
  unfold isDigit. rewrite andb_true_iff, !N.leb_le. done.
Qed.

Lemma digit_not_space c : isDigit c = true → isWhiteSpace c = false.
Proof.
  intros [H1 H2]%isDigit_bounds. unfold isWhiteSpace.
  repeat (apply orb_false_iff; split);
    try (apply N.eqb_neq; lia).
  apply andb_false_iff. left. apply N.leb_gt. lia.
Qed.

Lemma trim_digits ds :
  Forall (λ c, isDigit c = true) ds → trim ds = ds.
Proof.
  intros H. unfold trim.
  rewrite (trimStart_id ds).
  - apply trimEnd_id. apply List.Forall_rev in H. unfold codeunit in *.
    destruct (rev ds) as [|c r]; simpl; [done|].
    apply digit_not_space. by apply Forall_cons in H as [H _].
  - destruct ds as [|c r]; simpl; [done|].
    apply digit_not_space. by apply Forall_cons in H as [H _].
Qed.

Lemma span_all_digits ds :
  Forall (λ c, isDigit c = true) ds → span_digits ds = (ds, []).
Proof.
  induction 1 as [|c r Hc _ IH]; simpl; [done|].
  by rewrite Hc, IH.
Qed.


Lemma digits_not_Infinity c r :
  isDigit c = true → streq (c :: r) (str "Infinity") = false.
Proof.
  intros [H1 H2]%isDigit_bounds. apply streq_false. intros [= -> _]. lia.
Qed.

Lemma Number_digits ds :
  ds ≠ [] → Forall (λ c, isDigit c = true) ds →
  Number ds = parse_unsigned_decimal false ds.
Proof.
  intros Hne Hds. unfold Number. rewrite (trim_digits _ Hds).
  destruct ds as [|c r]; [done|].
  inversion Hds as [|? ? Hc Hr]; subst.
  pose proof (digits_not_Infinity c r Hc) as Hinf.
  apply isDigit_bounds in Hc as [Hc1 Hc2].
  unfold codeunit in *.
  destruct c as [|p]; [lia|].
  do 7 (try destruct p as [p|p|]); try lia.
  all: destruct r as [|c2 r]; [by cbv beta iota zeta; rewrite Hinf|].
  all: inversion Hr as [|? ? Hc2' _]; subst.
  all: apply isDigit_bounds in Hc2' as [Hd1 Hd2].
  all: destruct c2 as [|q]; [lia|].
  all: do 7 (try destruct q as [q|q|]); try lia.
  all: by cbv beta iota zeta; rewrite Hinf.
Qed.

Lemma parse_digits ds :
  ds ≠ [] → Forall (λ c, isDigit c = true) ds →
  parse_unsigned_decimal false ds = to_double false (decimal_value ds) 1.
Proof.
  intros Hne Hds. unfold parse_unsigned_decimal.
  rewrite (span_all_digits _ Hds). cbv beta iota zeta.
  destruct ds as [|c r]; [done|].
  cbn [length Nat.eqb andb]. rewrite app_nil_r.
  change (Z.of_nat (length (@nil N))) with 0%Z.
  change (0 <=? 0 - 0)%Z with true. cbv iota.
  change (0 - 0)%Z with 0%Z. by rewrite Z.pow_0_r, Z.mul_1_r.
Qed.

Lemma Qred_inject_Z n : Qred (inject_Z n) = inject_Z n.
Proof.
  unfold Qred, inject_Z.
  pose proof (Z.ggcd_gcd n 1) as Hg.
  pose proof (Z.ggcd_correct_divisors n 1) as Hd.
  destruct (Z.ggcd n 1) as [g [a b]]. simpl in *.
  rewrite Z.gcd_1_r in Hg. subst g. destruct Hd as [Ha Hb].
  rewrite Z.mul_1_l in Ha, Hb. by subst.
Qed.

Lemma round_half_even_exact n : round_half_even n 1 = n.
Proof.
  unfold round_half_even. by rewrite Z.mod_1_r, Z.div_1_r.
Qed.

Lemma to_double_exact n :
  (0 ≤ n < 2 ^ 53)%Z → to_double false n 1 = Finite (inject_Z n).
Proof.
  intros [H0 H53]. unfold to_double.
  destruct (Z.eqb_spec n 0) as [-> | Hn]; [done|].
  assert (0 < n)%Z as Hpos by lia.
  pose proof (Z.log2_spec n Hpos) as [Hlo Hhi].
  assert (0 ≤ Z.log2 n)%Z as Hl0 by apply Z.log2_nonneg.
  assert (Z.log2 n < 53)%Z as Hl53 by (apply Z.log2_lt_pow2; lia).
  change (Z.log2 1) with 0%Z. rewrite Z.sub_0_r.
  replace (0 <=? Z.log2 n)%Z with true by (symmetry; by apply Z.leb_le).
  rewrite Z.mul_1_l.
  replace (2 ^ Z.log2 n <=? n)%Z with true by (symmetry; by apply Z.leb_le).
  replace (Z.max (Z.log2 n - 52) (-1074)) with (Z.log2 n - 52)%Z by lia.
  set (p := (Z.log2 n - 52)%Z).
  destruct (Z.leb_spec 0 p) as [Hp | Hp].
  - assert (p = 0%Z) as -> by lia.
    rewrite Z.pow_0_r, Z.mul_1_r, round_half_even_exact.
    replace (n =? 0)%Z with false by (symmetry; by apply Z.eqb_neq).
    rewrite Z.add_0_r.
    replace (1024 <=? Z.log2 n)%Z with false
      by (symmetry; apply Z.leb_gt; lia).
    by rewrite Z.mul_1_r, Qred_inject_Z.
  - rewrite round_half_even_exact.
    assert (0 < 2 ^ (- p))%Z as Hpow by (apply Z.pow_pos_nonneg; lia).
    replace (n * 2 ^ (- p) =? 0)%Z with false
      by (symmetry; apply Z.eqb_neq; nia).
    replace (Z.log2 (n * 2 ^ (- p))) with (Z.log2 n + - p)%Z
      by (symmetry; rewrite <- Z.shiftl_mul_pow2 by lia;
          apply Z.log2_shiftl; lia).
    replace (1024 <=? Z.log2 n + - p + p)%Z with false
      by (symmetry; apply Z.leb_gt; lia).
    f_equal. rewrite <- Qred_inject_Z. apply Qred_complete.
    unfold Qeq, inject_Z. simpl. rewrite Z2Pos.id by done. lia.
Qed.

Lemma decimal_value_nonneg ds : (0 ≤ decimal_value ds)%Z.
Proof.
  unfold decimal_value.
  assert (∀ acc, (0 ≤ acc)%Z →
            (0 ≤ foldl (λ acc c, 10 * acc + Z.of_N (c - 48)) acc ds)%Z) as H.
  { induction ds as [|c r IH]; intros acc Hacc; simpl; [done|].
    apply IH. lia. }
  by apply H.
Qed.

Lemma parseNumberParam_digits ds :
  ds ≠ [] → Forall (λ c, isDigit c = true) ds →
  (decimal_value ds < 2 ^ 53)%Z →
  parseNumberParam (Some (QOne (EString ds)))
  = NNumber (inject_Z (decimal_value ds)).
Proof.
  intros Hne Hds Hlt. unfold parseNumberParam. simpl String_of_elem.
  cbv zeta. rewrite (trim_digits _ Hds).
  replace (streq ds []) with false by (symmetry; by apply streq_false).
  rewrite (Number_digits _ Hne Hds), (parse_digits _ Hne Hds).
  rewrite to_double_exact; [done|].
  split; [apply decimal_value_nonneg | done].
Qed.

Lemma Qle_bool_of_nat_r n (z : Z) :
  Qle_bool (of_nat n) (inject_Z z) = (Z.of_nat n <=? z)%Z.
Proof. unfold Qle_bool, of_nat. simpl. by rewrite !Z.mul_1_r. Qed.

(** X20. A numeric parameter written as a non-empty run of decimal digits
    with value [n] below 2^53 is read as [n]: given alone, [min_length]
    lists the records of length at least [n], [max_length] those of length
    at most [n], and [word_count] those whose word count is [n]. *)
Theorem decimal_parameter_is_its_value
    (toLowerCase : jsstring → jsstring) (strings : list Str.t)
    (ds : jsstring) :
  ds ≠ [] → Forall (λ c, isDigit c = true) ds →
  (decimal_value ds < 2 ^ 53)%Z →
  let n := decimal_value ds in
  let given := Some (QOne (EString ds)) in
  parseNumberParam given = NNumber (inject_Z n) ∧
  data_of (getAllStringsWithFiltering toLowerCase strings
             (Raw.Build None given None None None))
  = Some (List.filter (λ r, (n <=? Z.of_nat (prop_length r))%Z) strings) ∧
  data_of (getAllStringsWithFiltering toLowerCase strings
             (Raw.Build None None given None None))
  = Some (List.filter (λ r, (Z.of_nat (prop_length r) <=? n)%Z) strings) ∧
  data_of (getAllStringsWithFiltering toLowerCase strings
             (Raw.Build None None None given None))
  = Some (List.filter (λ r, (Z.of_nat (prop_word_count r) =? n)%Z) strings).
Proof.
  intros Hne Hds Hlt n given.
  pose proof (parseNumberParam_digits ds Hne Hds Hlt) as Hparse.
  fold n given in Hparse. split_and!; [done|..].
  - unfold getAllStringsWithFiltering. cbn [Raw.min_length Raw.max_length
      Raw.word_count Raw.is_palindrome Raw.contains_character].
    rewrite Hparse. simpl. f_equal.
    apply List.filter_ext. intros r. apply Qle_bool_of_nat.
  - unfold getAllStringsWithFiltering. cbn [Raw.min_length Raw.max_length
      Raw.word_count Raw.is_palindrome Raw.contains_character].
    rewrite Hparse. simpl. f_equal.
    apply List.filter_ext. intros r. apply Qle_bool_of_nat_r.
  - unfold getAllStringsWithFiltering. cbn [Raw.min_length Raw.max_length
      Raw.word_count Raw.is_palindrome Raw.contains_character].
    rewrite Hparse. simpl. f_equal.
    apply List.filter_ext. intros r. apply Qeq_bool_of_nat.
Qed.

Lemma decimal_parameter_is_its_value_witness :
  data_of (getAllStringsWithFiltering toLowerASCII
             [new_record (str "zebra") (str "t0");
              new_record (str "kiwi") (str "t1")]
             (Raw.Build None (text "5") None None None))
  = Some [new_record (str "zebra") (str "t0")].
Proof.
  destruct (decimal_parameter_is_its_value toLowerASCII
              [new_record (str "zebra") (str "t0");
               new_record (str "kiwi") (str "t1")] (str "5"))
    as (_ & H & _).
  - discriminate.
  - repeat constructor.
  - reflexivity.
  - unfold text. rewrite H. reflexivity.
Defined.
